(** * astro_opt: the asset optimisation pipeline of [src/astro_opt.ts]

    A shallow embedding of the watcher predicate, the backfill pass, the path
    mapping, the per-category strategists and the size report, followed by the
    properties of the specification that were checked against them.

    Strings are Stdlib strings read as sequences of one-byte characters;
    filesystem paths are POSIX paths ([path.sep] is the slash). *)

From Stdlib Require Import ZArith QArith Ascii.
From stdpp Require Import base list gmap strings.

Open Scope Z_scope.

(** ** The [String.prototype] functions the program calls *)

Module Js.

Definition slash : ascii := "/"%char.
Definition dot : ascii := "."%char.

(** [s.length] *)
Definition len (s : string) : Z := Z.of_nat (String.length s).

(** [s.startsWith(p)], with the rest of [s] when it does. *)
Fixpoint strip_prefix (p s : string) : option string :=
  match p, s with
  | EmptyString, _ => Some s
  | String a p', String b s' => if Ascii.eqb a b then strip_prefix p' s' else None
  | String _ _, EmptyString => None
  end.

(** [s.includes(p)] *)
Fixpoint includes (p s : string) : bool :=
  match strip_prefix p s with
  | Some _ => true
  | None => match s with
            | EmptyString => false
            | String _ s' => includes p s'
            end
  end.

(** [s.replace(p, r)] for a string pattern: the first occurrence only
    (the replacements of the program hold no dollar sign). *)
Fixpoint replace (p r s : string) : string :=
  match strip_prefix p s with
  | Some rest => r +:+ rest
  | None => match s with
            | EmptyString => EmptyString
            | String c s' => String c (replace p r s')
            end
  end.

(** [s.lastIndexOf(c)] for a one-character string, [-1] when absent;
    [i] is the index of the head of [s] and [acc] the last match so far. *)
Fixpoint lastIndexOf_from (c : ascii) (s : string) (i acc : Z) : Z :=
  match s with
  | EmptyString => acc
  | String a s' => lastIndexOf_from c s' (i + 1) (if Ascii.eqb a c then i else acc)
  end.

Definition lastIndexOf (c : ascii) (s : string) : Z := lastIndexOf_from c s 0 (-1).

Fixpoint take (n : nat) (s : string) : string :=
  match n, s with
  | S n', String a s' => String a (take n' s')
  | _, _ => EmptyString
  end.

Fixpoint drop (n : nat) (s : string) : string :=
  match n, s with
  | S n', String _ s' => drop n' s'
  | _, _ => s
  end.

(** [s.substring(i, j)]: both ends are clamped to [0, s.length] and
    swapped when they come in the wrong order. *)
Definition substring (s : string) (i j : Z) : string :=
  let clamp k := Z.max 0 (Z.min k (len s)) in
  let lo := Z.min (clamp i) (clamp j) in
  let hi := Z.max (clamp i) (clamp j) in
  take (Z.to_nat (hi - lo)) (drop (Z.to_nat lo) s).

(** [s.substring(i)] *)
Definition substring_from (s : string) (i : Z) : string := substring s i (len s).

(** [s.split(c)] for a one-character separator; [cur] is the piece being
    read.  The result is never empty. *)
Fixpoint split_from (c : ascii) (s cur : string) : list string :=
  match s with
  | EmptyString => [cur]
  | String a s' =>
      if Ascii.eqb a c then cur :: split_from c s' EmptyString
      else split_from c s' (cur +:+ String a EmptyString)
  end.

Definition split (c : ascii) (s : string) : list string := split_from c s EmptyString.

(** [pieces.join(c)] *)
Fixpoint join (c : ascii) (l : list string) : string :=
  match l with
  | [] => EmptyString
  | [s] => s
  | s :: l' => s +:+ String c (join c l')
  end.

Definition lower_char (a : ascii) : ascii :=
  let n := nat_of_ascii a in
  if ((65 <=? n)%nat && (n <=? 90)%nat)%bool then ascii_of_nat (n + 32) else a.

(** [s.toLowerCase()] on text in ASCII: the letters A to Z become a to z
    and every other character is kept.  JavaScript also maps the cased
    letters outside ASCII; the only one it maps to an ASCII letter is
    the Kelvin sign, to k, a letter no listed extension has, so the tests of
    the extension against the lists come out the same. *)
Fixpoint toLowerCase (s : string) : string :=
  match s with
  | EmptyString => EmptyString
  | String a s' => String (lower_char a) (toLowerCase s')
  end.

(** [s.endsWith(p)], with what comes before [p] when it does. *)
Definition strip_suffix (p s : string) : option string :=
  let n := (String.length s - String.length p)%nat in
  if ((String.length p <=? String.length s)%nat && String.eqb (drop n s) p)%bool
  then Some (take n s) else None.

(** [array.includes(x)] on an array of strings. *)
Definition array_includes (x : string) (l : list string) : bool :=
  existsb (String.eqb x) l.

End Js.

(** ** Node's [path] module, POSIX flavour *)

Module Path.

Definition sep : ascii := Js.slash.

(** The last portion of a path: trailing separators are skipped, as
    [extname] and [basename] both do. *)
Definition last_component (p : string) : string :=
  List.last (filter (fun s => s <> EmptyString) (Js.split sep p)) EmptyString.

(** [path.extname(p)]: from the last dot of the last portion to its end;
    empty when there is no dot, when the only dot starts the portion, and
    for the portion [..]. *)
Definition extname (p : string) : string :=
  let c := last_component p in
  let d := Js.lastIndexOf Js.dot c in
  if (d <=? 0) || String.eqb c ".." then EmptyString else Js.substring_from c d.

(** [path.basename(p, ext)]: the last portion, without [ext] when it ends
    with it and is longer than it.  A path that is [ext] itself gives the
    empty string. *)
Definition basename (p ext : string) : string :=
  let c := last_component p in
  if String.eqb ext EmptyString then c
  else if String.eqb ext p then EmptyString
  else match Js.strip_suffix ext c with
       | Some stem => if String.eqb stem EmptyString then c else stem
       | None => c
       end.

(** [normalizeString]: empty and [.] segments go, [..] removes the segment
    before it; above the root it is dropped for an absolute path and kept
    for a relative one.  [acc] is the result so far, last segment first. *)
Fixpoint normalize_segments (above : bool) (segs acc : list string) : list string :=
  match segs with
  | [] => rev acc
  | s :: rest =>
      if String.eqb s EmptyString || String.eqb s "." then normalize_segments above rest acc
      else if String.eqb s ".." then
        match acc with
        | top :: acc' =>
            if String.eqb top ".." then normalize_segments above rest (s :: acc)
            else normalize_segments above rest acc'
        | [] => normalize_segments above rest (if above then [s] else [])
        end
      else normalize_segments above rest (s :: acc)
  end.

Definition normalizeString (p : string) (above : bool) : string :=
  Js.join sep (normalize_segments above (Js.split sep p) []).

Definition isAbsolute (p : string) : bool :=
  match p with String a _ => Ascii.eqb a sep | EmptyString => false end.

Definition ends_with_sep (p : string) : bool :=
  match Js.strip_suffix (String sep EmptyString) p with Some _ => true | None => false end.

(** [path.normalize(p)] *)
Definition normalize (p : string) : string :=
  if String.eqb p EmptyString then "."
  else
    let n := normalizeString p (negb (isAbsolute p)) in
    if String.eqb n EmptyString then
      if isAbsolute p then "/" else if ends_with_sep p then "./" else "."
    else
      let n' := if ends_with_sep p then n +:+ "/" else n in
      if isAbsolute p then "/" +:+ n' else n'.

(** [path.join(a, b)]: the non-empty arguments joined by the separator,
    then normalised. *)
Definition join (a b : string) : string :=
  if String.eqb a EmptyString then normalize b
  else if String.eqb b EmptyString then normalize a
  else normalize (a +:+ "/" +:+ b).

(** [path.resolve(p)] in a process whose working directory is [cwd]
    (absolute): the arguments are taken right to left until the path is
    absolute, a separator after each, and the result is normalised. *)
Definition resolve (cwd p : string) : string :=
  let r := p +:+ "/" in
  let r := if isAbsolute p then r else cwd +:+ "/" +:+ r in
  "/" +:+ normalizeString r false.

End Path.

(** ** Values exchanged with the codecs and the host *)

(** A rejected promise or a thrown exception, with its message. *)
Inductive Error := Err (msg : string).

Inductive Result (A : Type) :=
| Ok (a : A)
| Throw (e : Error).
Arguments Ok {A} a.
Arguments Throw {A} e.

(** What [sharp(file).metadata()] reports; a field may be undefined. *)
Record Metadata := {
  width : option Z;
  height : option Z;
  hasAlpha : option bool }.

(** The argument of [resize]: [{}], [{ width }] or [{ height }]. *)
Inductive ResizeOptions :=
| NoResize
| ToWidth (w : Z)
| ToHeight (h : Z).

(** The [info] of [raw().toBuffer({ resolveWithObject: true })]. *)
Record RawInfo := {
  raw_width : Z;
  raw_height : Z;
  raw_channels : Z }.

(** The [AvifOptions | PngOptions] object handed to [toFormat]. *)
Record EncodeOptions := {
  quality : Z;
  effort : Z;
  chromaSubsampling : string;
  progressive : bool }.

(** What a [sharp] pipeline reads: a file, resized, or a raw pixel buffer
    with its declared geometry. *)
Inductive SharpInput :=
| FromFile (p : string) (r : ResizeOptions)
| FromRaw (buffer : list Z) (w h channels : Z).

(** What an encoder leaves at its output path: the whole file, a part of
    it before failing, or nothing before failing. *)
Inductive Outcome :=
| Written (content : string)
| Partial (content : string)
| Nothing.

(** What a child process did: its exit status, its standard output and the
    files it wrote. *)
Record ExecResult := {
  exit_ok : bool;
  stdout : string;
  written : list (string * string) }.

(** The machine the program runs on: the working directory of the process
    and the answers of the libraries and tools it calls, which the program
    treats as opaque services. *)
Record Host := {
  cwd : string;
  mkdir_rejects : string -> bool;
  sharp_metadata : string -> Result Metadata;
  sharp_raw : string -> ResizeOptions -> Result (list Z * RawInfo);
  sharp_toFile : SharpInput -> string -> EncodeOptions -> string -> Outcome;
  svgo_optimize : string -> Result string;
  ttf2woff2 : string -> Result string;
  exec : string -> ExecResult }.

(** The rendering of [getDif]: the error marker, or the colour escape, the
    percentage (exact, in lowest terms; the program prints it with three
    decimals) and the directional word. *)
Inductive DifText :=
| DifError
| Dif (colour : string) (percent : Q) (word : string).

(** Lines written to the console. *)
Inductive Console :=
| Queueing (input : string)
| Optimised (input : string) (before : Z) (output : string) (after : Z) (dif : DifText)
| CopiedFont (input output : string)
| ErrorProcessing (input : string) (e : Error)
| UnableToWriteFont (input output : string) (e : Error)
| UnableToReadFont (input : string) (e : Error)
| UnableToCopyFont (input output : string) (e : Error)
| ErrorOptimizing (filePath : string) (e : Error).

(** Calls that leave the process, in the order they are made. *)
Inductive Event :=
| EvMkdir (dir : string) (rejected : bool)
| EvUnlink (p : string)
| EvReadFile (p : string)
| EvWriteFile (p : string)
| EvCopyFile (src dst : string)
| EvStat (p : string)
| EvMetadata (p : string)
| EvRaw (p : string) (r : ResizeOptions)
| EvToFile (input : SharpInput) (format : string) (options : EncodeOptions) (out : string)
| EvExec (command : string)
| EvConsole (line : Console).

(** The state a job runs in: the regular files (path to content), the
    directories, the calls made so far, and the three mutable locals of
    [optimise] ([outputFilePath], [beforeSize], [afterSize]). *)
Record State := {
  files : gmap string string;
  dirs : gset string;
  trace : list Event;
  outputFilePath : string;
  beforeSize : option Z;
  afterSize : option Z }.

Definition set_files (f : gmap string string) (s : State) : State :=
  {| files := f; dirs := dirs s; trace := trace s;
     outputFilePath := outputFilePath s; beforeSize := beforeSize s; afterSize := afterSize s |}.

Definition set_dirs (d : gset string) (s : State) : State :=
  {| files := files s; dirs := d; trace := trace s;
     outputFilePath := outputFilePath s; beforeSize := beforeSize s; afterSize := afterSize s |}.

Definition set_trace (t : list Event) (s : State) : State :=
  {| files := files s; dirs := dirs s; trace := t;
     outputFilePath := outputFilePath s; beforeSize := beforeSize s; afterSize := afterSize s |}.

Definition set_outputFilePath (p : string) (s : State) : State :=
  {| files := files s; dirs := dirs s; trace := trace s;
     outputFilePath := p; beforeSize := beforeSize s; afterSize := afterSize s |}.

Definition set_beforeSize (n : option Z) (s : State) : State :=
  {| files := files s; dirs := dirs s; trace := trace s;
     outputFilePath := outputFilePath s; beforeSize := n; afterSize := afterSize s |}.

Definition set_afterSize (n : option Z) (s : State) : State :=
  {| files := files s; dirs := dirs s; trace := trace s;
     outputFilePath := outputFilePath s; beforeSize := beforeSize s; afterSize := n |}.

(** ** Asynchronous code as a state and exception monad

    An [await]ed call either returns or throws, and changes the state. *)

Definition M (A : Type) : Type := State -> Result A * State.

Definition ret {A} (a : A) : M A := fun s => (Ok a, s).

Definition throw {A} (e : Error) : M A := fun s => (Throw e, s).

Definition bind {A B} (m : M A) (k : A -> M B) : M B :=
  fun s => match m s with
           | (Ok a, s') => k a s'
           | (Throw e, s') => (Throw e, s')
           end.

(** [try { m } catch (e) { handler(e) }], also [m.catch(handler)]. *)
Definition try_catch {A} (m : M A) (handler : Error -> M A) : M A :=
  fun s => match m s with
           | (Ok a, s') => (Ok a, s')
           | (Throw e, s') => handler e s'
           end.

(** [m.catch(() => {})] *)
Definition swallow (m : M unit) : M unit := try_catch m (fun _ => ret tt).

Definition get : M State := fun s => (Ok s, s).

Definition modify (f : State -> State) : M unit := fun s => (Ok tt, f s).

Notation "x <- m ;; k" := (bind m (fun x => k))
  (at level 100, m at next level, right associativity).
Notation "m ;; k" := (bind m (fun _ => k))
  (at level 100, right associativity).

Definition emit (e : Event) : M unit := modify (fun s => set_trace (trace s ++ [e]) s).

Definition console (line : Console) : M unit := emit (EvConsole line).

(** [appends m]: whatever [m] does, the calls made before it stay in the
    trace, in order, and [m] adds its own after them. *)
Definition appends {A} (m : M A) : Prop :=
  forall s, exists rest, trace (m s).2 = trace s ++ rest.

(** ** The filesystem and the services, as the program calls them *)

Definition enoent : Error := Err "ENOENT".

(** The directory a path lies in: the text before its last separator. *)
Definition parent (p : string) : string := Js.substring p 0 (Js.lastIndexOf Path.sep p).

(** A directory and the directories above it; [pre] is what was read. *)
Fixpoint ancestors_from (pre s : string) : list string :=
  match s with
  | EmptyString => [pre]
  | String a s' =>
      (if Ascii.eqb a Path.sep && negb (String.eqb pre EmptyString) then [pre] else [])
      ++ ancestors_from (pre +:+ String a EmptyString) s'
  end.

(** [fs.mkdir(dir, { recursive: true })] *)
Definition mkdir (h : Host) (dir : string) : M unit :=
  emit (EvMkdir dir (mkdir_rejects h dir));;
  if mkdir_rejects h dir then throw (Err "mkdir")
  else modify (fun s => set_dirs (dirs s ∪ list_to_set (ancestors_from EmptyString dir)) s).

(** The directories after [mkdir(dir)], whether it was rejected or not. *)
Definition dirs_after_mkdir (h : Host) (dir : string) (d : gset string) : gset string :=
  if mkdir_rejects h dir then d else d ∪ list_to_set (ancestors_from EmptyString dir).

(** [fs.unlink(p)] *)
Definition unlink (p : string) : M unit :=
  emit (EvUnlink p);;
  s <- get;;
  match files s !! p with
  | Some _ => modify (set_files (delete p (files s)))
  | None => throw enoent
  end.

(** [fs.readFile(p)] *)
Definition readFile (p : string) : M string :=
  emit (EvReadFile p);;
  s <- get;;
  match files s !! p with
  | Some c => ret c
  | None => throw enoent
  end.

(** Creating or replacing the file [p]: its directory must exist. *)
Definition store (p content : string) : M unit :=
  s <- get;;
  if bool_decide (parent p ∈ dirs s) then modify (set_files (<[p := content]> (files s)))
  else throw enoent.

(** [fs.writeFile(p, content)] *)
Definition writeFile (p content : string) : M unit :=
  emit (EvWriteFile p);; store p content.

(** The completion of a [fs.copyFile(src, dst)] that was started earlier:
    the source is read and the destination written when the copy runs, not
    when it is asked for. *)
Definition copy_completes (src dst : string) : M unit :=
  s <- get;;
  match files s !! src with
  | Some c => store dst c
  | None => throw enoent
  end.

(** [(await fs.stat(p)).size] *)
Definition stat_size (p : string) : M Z :=
  emit (EvStat p);;
  s <- get;;
  match files s !! p with
  | Some c => ret (Js.len c)
  | None => throw enoent
  end.

Definition lift {A} (r : Result A) : M A :=
  match r with Ok a => ret a | Throw e => throw e end.

(** [sharp(p).metadata()] *)
Definition metadata (h : Host) (p : string) : M Metadata :=
  emit (EvMetadata p);; lift (sharp_metadata h p).

(** [sharp(p).resize(r).raw().toBuffer({ resolveWithObject: true })] *)
Definition raw_toBuffer (h : Host) (p : string) (r : ResizeOptions) : M (list Z * RawInfo) :=
  emit (EvRaw p r);; lift (sharp_raw h p r).

(** [pipeline.toFormat(format, options).toFile(out)] *)
Definition toFile (h : Host) (input : SharpInput) (format : string)
    (options : EncodeOptions) (out : string) : M unit :=
  emit (EvToFile input format options out);;
  match sharp_toFile h input format options out with
  | Written c => modify (fun s => set_files (<[out := c]> (files s)) s)
  | Partial c => modify (fun s => set_files (<[out := c]> (files s)) s);; throw (Err "sharp")
  | Nothing => throw (Err "sharp")
  end.

(** [execAsync(command)]: the files the process wrote are there whether it
    succeeded or not; a non-zero exit rejects. *)
Definition execAsync (h : Host) (command : string) : M string :=
  emit (EvExec command);;
  let r := exec h command in
  modify (fun s => set_files (foldl (fun f kv => <[kv.1 := kv.2]> f) (files s) (written r)) s);;
  if exit_ok r then ret (stdout r) else throw (Err "Command failed").

(** ** The program: constants and the watcher's predicate *)

Definition imageExtensions : list string := [".png"; ".jpg"; ".gif"].
Definition audioExtensions : list string := [".mp3"; ".m4a"; ".wav"; ".flac"; ".opus"; ".aac"].
Definition videoExtensions : list string := [".mp4"; ".mov"].
Definition fontExtensions : list string := [".ttf"; ".woff2"].

Definition watchDir (h : Host) : string := Path.resolve (cwd h) "./public_dev".
Definition cacheDir (h : Host) : string := Path.resolve (cwd h) "./opt_cache".

(** The test written twice in the program, in the watcher's [ignored]
    option and in the backfill loop, on a lowercased extension. *)
Definition listed_extension (ext : string) : bool :=
  (0 <? Js.len ext)
  && (Js.array_includes ext imageExtensions || Js.array_includes ext audioExtensions
      || Js.array_includes ext videoExtensions || Js.array_includes ext fontExtensions).

(** The function given to chokidar as [ignored]. *)
Definition ignored (filePath : string) : bool :=
  let ext := Js.toLowerCase (Path.extname filePath) in
  listed_extension ext.

(** chokidar's contract for [ignored]: a path for which the function
    answers true is not watched, and no event is emitted for it.  (Nor is
    one emitted for what lies below a directory for which it answers true;
    [delivered] speaks for a path whose directories are watched.) *)
Definition delivered (filePath : string) : bool := negb (ignored filePath).

(** The extensions [optimise] has a branch for: raster image, vector
    image, audio, video and font. *)
Definition known_category (ext : string) : bool :=
  Js.array_includes ext imageExtensions || String.eqb ext ".svg"
  || Js.array_includes ext audioExtensions || Js.array_includes ext videoExtensions
  || Js.array_includes ext fontExtensions.

(** ** The size report *)

Definition esc : string := String (ascii_of_nat 27) EmptyString.
Definition green : string := esc +:+ "[32m".
Definition red : string := esc +:+ "[31m".

(** JavaScript truthiness of a [number | undefined]: undefined and zero
    are both false. *)
Definition truthy (n : option Z) : bool :=
  match n with
  | Some k => negb (k =? 0)
  | None => false
  end.

Definition Qpositive (q : Q) : bool := negb (Qle_bool q 0).
Definition Qnegative (q : Q) : bool := negb (Qle_bool 0 q).

(** [getDif()], on the values of the two locals it closes over. *)
Definition getDif (beforeSize afterSize : option Z) : DifText :=
  if truthy beforeSize && truthy afterSize then
    let b := default 0 beforeSize in
    let a := default 0 afterSize in
    let dif := Qred (inject_Z (b - a) / inject_Z b * inject_Z 100) in
    Dif (if Qpositive dif then green else if Qnegative dif then red else EmptyString)
        dif
        (if Qpositive dif then "reduced" else if Qnegative dif then "gained" else EmptyString)
  else DifError.

(** ** The path mapping *)

(** The initial value of [outputFilePath] (line 61). *)
Definition mapped_path (filePath ext : string) : string :=
  Path.join
    (Js.replace "/public_dev" "/public"
       (Js.substring filePath 0 (Js.lastIndexOf Path.sep filePath)) +:+ String Path.sep EmptyString)
    (Path.basename filePath ext).

(** [s.replace(path.resolve('./'), '')] *)
Definition relative (h : Host) (p : string) : string :=
  Js.replace (Path.resolve (cwd h) "./") EmptyString p.

(** ** The strategists *)

Definition dq : string := String (ascii_of_nat 34) EmptyString.
Definition quoted (s : string) : string := dq +:+ s +:+ dq.

Definition read {A} (f : State -> A) : M A := fun s => (Ok (f s), s).

(** The sizes of the input and of the written file, then the report line. *)
Definition report (filePath written_path input output : string) : M unit :=
  b <- stat_size filePath;;
  modify (set_beforeSize (Some b));;
  a <- stat_size written_path;;
  modify (set_afterSize (Some a));;
  s <- get;;
  console (Optimised input b output a (getDif (beforeSize s) (afterSize s))).

(** The format of a raster image (line 85). *)
Definition image_format (h : Host) (filePath : string) : string :=
  if Z.of_nat (length (Js.split Path.sep
        (Js.substring_from filePath (Js.len (Path.resolve (cwd h) "./"))))) - 1 =? 2
  then "png" else "avif".

Definition resize_options (m : Metadata) : ResizeOptions :=
  if truthy (width m) && truthy (height m) then
    let w := default 0 (width m) in
    let ht := default 0 (height m) in
    if (1440 <? w) || (1440 <? ht) then
      if ht <? w then ToWidth 1440 else ToHeight 1440
    else NoResize
  else NoResize.

Definition encode_options (format : string) : EncodeOptions :=
  {| quality := if String.eqb format "avif" then 85 else 25;
     effort := if String.eqb format "avif" then 9 else 10;
     chromaSubsampling := "4:2:0";
     progressive := true |}.

(** The buffer handed to the encoder for an image with alpha: the
    destructuring binds [colorData] and [alphaData] to the same [data]
    property of the raw result. *)
Definition combinedBuffer (data : list Z) : list Z :=
  let colorData := data in
  let alphaData := data in
  colorData ++ alphaData.


Definition image_job (h : Host) (filePath input output : string) : M unit :=
  console (Queueing input);;
  try_catch
    (let format := image_format h filePath in
     modify (fun s => set_outputFilePath (outputFilePath s +:+ "." +:+ format) s);;
     m <- metadata h filePath;;
     let alpha := default false (hasAlpha m) in
     let resizeOptions := resize_options m in
     let config := encode_options format in
     out <- read outputFilePath;;
     (if alpha then
        r <- raw_toBuffer h filePath resizeOptions;;
        toFile h (FromRaw (combinedBuffer r.1) (raw_width r.2) (raw_height r.2) 4)
          format config out
      else toFile h (FromFile filePath resizeOptions) format config out);;
     report filePath out input (output +:+ "." +:+ format))
    (fun e => console (ErrorProcessing input e)).

Definition svg_job (h : Host) (filePath input output : string) : M unit :=
  console (Queueing input);;
  data <- readFile filePath;;
  result <- lift (svgo_optimize h data);;
  out <- read outputFilePath;;
  writeFile (out +:+ ".svg") result;;
  report filePath (out +:+ ".svg") input (output +:+ ".svg").

Definition audio_command (filePath out : string) : string :=
  "ffmpeg -i " +:+ quoted filePath
  +:+ " -c:a libfdk_aac -profile:a aac_he_v2 -b:a 48k -cutoff 18000 -ar 48000 -ac 2 -map_metadata 0 "
  +:+ quoted out +:+ ".aac -y".

Definition audio_job (h : Host) (filePath input output : string) : M unit :=
  console (Queueing input);;
  out <- read outputFilePath;;
  execAsync h (audio_command filePath out);;
  report filePath (out +:+ ".aac") input (output +:+ ".aac").

Definition nvenc_command (filePath out : string) : string :=
  "ffmpeg -i " +:+ quoted filePath +:+ " -c:v av1_nvenc -preset p7 -cq 30 -b:v 0 "
  +:+ quoted out +:+ ".mp4 -y".

Definition qsv_command (filePath out : string) : string :=
  "ffmpeg -init_hw_device vaapi=va:/dev/dri/renderD128 -i " +:+ quoted filePath
  +:+ " -c:v av1_qsv -preset veryslow -q:v 30 -b:v 0 " +:+ quoted out +:+ ".mp4 -y".

Definition amf_command (filePath out : string) : string :=
  "ffmpeg -i " +:+ quoted filePath
  +:+ " -c:v av1_amf -usage quality -rc vbr_quality -q:v 20 -b:v 0 " +:+ quoted out +:+ ".mp4 -y".

Definition libaom_command (filePath out : string) : string :=
  "ffmpeg -i " +:+ quoted filePath +:+ " -c:v libaom-av1 -crf 30 -b:v 0 -preset slow "
  +:+ quoted out +:+ ".mp4 -y".

(** The command chosen from the encoder listing (lines 157 to 169). *)
Definition ffmpegCommand (encoders filePath out : string) : string :=
  if Js.includes "av1_nvenc" encoders then nvenc_command filePath out
  else if Js.includes "av1_qsv" encoders then qsv_command filePath out
  else if Js.includes "av1_amf" encoders then amf_command filePath out
  else libaom_command filePath out.

Definition video_job (h : Host) (filePath input output : string) : M unit :=
  console (Queueing input);;
  encoders <- execAsync h "ffmpeg -encoders";;
  out <- read outputFilePath;;
  execAsync h (ffmpegCommand encoders filePath out);;
  report filePath (out +:+ ".mp4") input (output +:+ ".mp4").

(** A throw of the converter happens while the arguments of [writeFile]
    are evaluated, inside the callback of [readFile]: the outer [catch]
    of the chain sees it.  The inner [catch] sees a failed write and a
    failed size lookup. *)
Definition ttf_job (h : Host) (filePath input output : string) : M unit :=
  try_catch
    (data <- readFile filePath;;
     woff <- lift (ttf2woff2 h data);;
     out <- read outputFilePath;;
     try_catch
       (writeFile (out +:+ ".woff2") woff;;
        report filePath (out +:+ ".woff2") input (output +:+ ".woff2"))
       (fun err => console (UnableToWriteFont input output err)))
    (fun err => console (UnableToReadFont input err)).

(** Line 195 asks for the copy and the branch ends: the promise of
    [fs.copyFile] is not awaited, so the job returns with the copy under
    way and nothing logged. *)
Definition woff2_job (filePath : string) : M unit :=
  out <- read outputFilePath;;
  emit (EvCopyFile filePath (out +:+ ".woff2")).

(** What runs when that copy settles, at some later time and in the state
    of that time: the copy is done and [then] logs it, or it failed and
    [catch] logs that.  [dst] is the destination given at line 195. *)
Definition woff2_copy_settled (filePath input output dst : string) : M unit :=
  try_catch
    (copy_completes filePath dst;;
     console (CopiedFont input output))
    (fun err => console (UnableToCopyFont input output err)).

Definition font_job (h : Host) (filePath ext input output : string) : M unit :=
  console (Queueing input);;
  if String.eqb ext ".ttf" then ttf_job h filePath input output
  else if String.eqb ext ".woff2" then woff2_job filePath
  else ret tt.

(** ** [optimise] and [handleFileChange] *)

(** Lines 61 to 69: the mapped path, the output directory, the removal of
    what lies at the mapped path, the cache directory. *)
Definition prepare (h : Host) (filePath ext : string) : M unit :=
  modify (fun s => set_afterSize None (set_beforeSize None
            (set_outputFilePath (mapped_path filePath ext) s)));;
  out <- read outputFilePath;;
  swallow (mkdir h (Js.substring out 0 (Js.lastIndexOf Path.sep out)));;
  swallow (unlink out);;
  mkdir h (cacheDir h).

(** Lines 79 to 205: the branch of the category, inside the [try] whose
    [catch] unlinks [outputFilePath] and logs. *)
Definition transcode (h : Host) (filePath ext : string) : M unit :=
  let input := relative h filePath in
  let output := relative h (mapped_path filePath ext) in
  try_catch
    (if Js.array_includes ext imageExtensions then image_job h filePath input output
     else if String.eqb ext ".svg" then svg_job h filePath input output
     else if Js.array_includes ext audioExtensions then audio_job h filePath input output
     else if Js.array_includes ext videoExtensions then video_job h filePath input output
     else if Js.array_includes ext fontExtensions then font_job h filePath ext input output
     else ret tt)
    (fun e =>
       out <- read outputFilePath;;
       swallow (unlink out);;
       console (ErrorProcessing input e)).

Definition optimise (h : Host) (filePath ext : string) : M unit :=
  prepare h filePath ext;; transcode h filePath ext.

Definition handleFileChange (h : Host) (filePath : string) : M unit :=
  let ext := Js.toLowerCase (Path.extname filePath) in
  try_catch (optimise h filePath ext) (fun e => console (ErrorOptimizing filePath e)).

(** ** The backfill pass and the switch to live watching

    [forEach] calls its callback on every entry of the listing in one
    synchronous sweep: a matching entry starts [handleFileChange] and is
    suspended at its [await]; the other entries do nothing.  Afterwards the
    suspended calls return one at a time, in the order their I/O completes,
    which the program does not control. *)

Module Backfill.

Inductive Job :=
| NotMatching
| Running
| Finished.

(** [live]: the [add], [change] and [unlink] handlers are attached. *)
Record Dispatcher := {
  jobs : list Job;
  live : bool }.

Definition matches (filePath : string) : bool :=
  let ext := Js.toLowerCase (Path.extname filePath) in
  listed_extension ext.

Definition start (listing : list string) : Dispatcher :=
  {| jobs := (fun filePath => if matches filePath then Running else NotMatching) <$> listing;
     live := false |}.

(** The awaited call of entry [index] returns: its callback goes on, and
    resolves the promise when [index === array.length - 1]; the [then] of
    the promise attaches the handlers. *)
Definition finish (index : nat) (d : Dispatcher) : option Dispatcher :=
  match jobs d !! index with
  | Some Running =>
      Some {| jobs := <[index := Finished]> (jobs d);
              live := live d || bool_decide (index = (length (jobs d) - 1)%nat) |}
  | _ => None
  end.

Definition step (d d' : Dispatcher) : Prop := exists index, finish index d = Some d'.

(** The states the dispatcher can be in after the listing was read. *)
Definition reachable (listing : list string) (d : Dispatcher) : Prop :=
  rtc step (start listing) d.

End Backfill.

(** ** Absolute paths given by their segments *)

(** The absolute path with the segments [l], in order. *)
Definition path_of (l : list string) : string := Js.join Path.sep (EmptyString :: l).

Fixpoint sep_free (s : string) : bool :=
  match s with
  | EmptyString => true
  | String a s' => negb (Ascii.eqb a Path.sep) && sep_free s'
  end.

(** A segment of a normalised path: not empty, not [.] or [..], and
    without separator. *)
Definition plain (s : string) : bool :=
  sep_free s && negb (String.eqb s EmptyString) && negb (String.eqb s ".")
  && negb (String.eqb s "..").

(** Following the specification's words: how many segments a path lies
    below a root directory, when it lies below it. *)
Definition depth_below (root p : string) : option nat :=
  match Js.strip_prefix (root +:+ "/") p with
  | Some rest => Some (length (Js.split Path.sep rest))
  | None => None
  end.


(** ** A project in [/proj], and hosts for it *)

Definition no_output : ExecResult := {| exit_ok := false; stdout := EmptyString; written := [] |}.

(** A host on which every service fails before writing anything. *)
Definition bare_host : Host :=
  {| cwd := "/proj";
     mkdir_rejects := fun _ => false;
     sharp_metadata := fun _ => Throw (Err "Input file is missing");
     sharp_raw := fun _ _ => Throw (Err "Input file is missing");
     sharp_toFile := fun _ _ _ _ => Nothing;
     svgo_optimize := fun _ => Throw (Err "svgo");
     ttf2woff2 := fun _ => Throw (Err "ttf2woff2");
     exec := fun _ => no_output |}.

(** The audio encoder writes a part of its output file, then exits with
    an error. *)
Definition audio_fails : Host :=
  {| cwd := "/proj";
     mkdir_rejects := fun _ => false;
     sharp_metadata := sharp_metadata bare_host;
     sharp_raw := sharp_raw bare_host;
     sharp_toFile := sharp_toFile bare_host;
     svgo_optimize := svgo_optimize bare_host;
     ttf2woff2 := ttf2woff2 bare_host;
     exec := fun command =>
       if String.eqb command (audio_command "/proj/public_dev/a/song.mp3" "/proj/public/a/song")
       then {| exit_ok := false; stdout := EmptyString;
               written := [("/proj/public/a/song.aac", "partial")] |}
       else no_output |}.

Definition opaque_image : Metadata :=
  {| width := Some 800; height := Some 600; hasAlpha := Some false |}.

(** The image encoder writes a part of its output file, then fails. *)
Definition image_fails : Host :=
  {| cwd := "/proj";
     mkdir_rejects := fun _ => false;
     sharp_metadata := fun _ => Ok opaque_image;
     sharp_raw := sharp_raw bare_host;
     sharp_toFile := fun _ _ _ _ => Partial "partial";
     svgo_optimize := svgo_optimize bare_host;
     ttf2woff2 := ttf2woff2 bare_host;
     exec := exec bare_host |}.

(** The image encoder works. *)
Definition image_works : Host :=
  {| cwd := "/proj";
     mkdir_rejects := fun _ => false;
     sharp_metadata := fun _ => Ok opaque_image;
     sharp_raw := sharp_raw bare_host;
     sharp_toFile := fun _ _ _ _ => Written "avif";
     svgo_optimize := svgo_optimize bare_host;
     ttf2woff2 := ttf2woff2 bare_host;
     exec := exec bare_host |}.




(** The optimiser reduces the drawing to the empty text. *)
Definition svg_empties : Host :=
  {| cwd := "/proj";
     mkdir_rejects := fun _ => false;
     sharp_metadata := sharp_metadata bare_host;
     sharp_raw := sharp_raw bare_host;
     sharp_toFile := sharp_toFile bare_host;
     svgo_optimize := fun _ => Ok EmptyString;
     ttf2woff2 := ttf2woff2 bare_host;
     exec := exec bare_host |}.

(** A machine without hardware encoder: the probe lists the software
    encoder only, and the software command encodes the clip. *)
Definition software_only : Host :=
  {| cwd := "/proj";
     mkdir_rejects := fun _ => false;
     sharp_metadata := sharp_metadata bare_host;
     sharp_raw := sharp_raw bare_host;
     sharp_toFile := sharp_toFile bare_host;
     svgo_optimize := svgo_optimize bare_host;
     ttf2woff2 := ttf2woff2 bare_host;
     exec := fun command =>
       if String.eqb command "ffmpeg -encoders"
       then {| exit_ok := true; stdout := " V....D libaom-av1           libaom AV1 (codec av1)";
               written := [] |}
       else if String.eqb command (libaom_command "/proj/public_dev/clip.mp4" "/proj/public/clip")
       then {| exit_ok := true; stdout := EmptyString;
               written := [("/proj/public/clip.mp4", "av1")] |}
       else no_output |}.

Definition project_dirs : gset string :=
  {[ "/proj"; "/proj/public_dev"; "/proj/public_dev/a"; "/proj/public_dev/a/b" ]}.

(** The state before a job, with the given files. *)
Definition project (f : gmap string string) : State :=
  {| files := f; dirs := project_dirs; trace := [];
     outputFilePath := EmptyString; beforeSize := None; afterSize := None |}.

(** ** More hosts and predicates for the properties of the jobs *)

(** The optimiser and the font converter work. *)
Definition tools_work : Host :=
  {| cwd := "/proj";
     mkdir_rejects := fun _ => false;
     sharp_metadata := sharp_metadata bare_host;
     sharp_raw := sharp_raw bare_host;
     sharp_toFile := sharp_toFile bare_host;
     svgo_optimize := fun _ => Ok "<svg/>";
     ttf2woff2 := fun _ => Ok "wOF2";
     exec := exec bare_host |}.

(** The audio encoder works. *)
Definition audio_works : Host :=
  {| cwd := "/proj";
     mkdir_rejects := fun _ => false;
     sharp_metadata := sharp_metadata bare_host;
     sharp_raw := sharp_raw bare_host;
     sharp_toFile := sharp_toFile bare_host;
     svgo_optimize := svgo_optimize bare_host;
     ttf2woff2 := ttf2woff2 bare_host;
     exec := fun command =>
       if String.eqb command (audio_command "/proj/public_dev/a/song.mp3" "/proj/public/a/song")
       then {| exit_ok := true; stdout := EmptyString;
               written := [("/proj/public/a/song.aac", "aac")] |}
       else no_output |}.

(** The cache directory cannot be made. *)
Definition no_cache_dir : Host :=
  {| cwd := "/proj";
     mkdir_rejects := fun dir => String.eqb dir "/proj/opt_cache";
     sharp_metadata := fun _ => Ok opaque_image;
     sharp_raw := sharp_raw bare_host;
     sharp_toFile := fun _ _ _ _ => Written "avif";
     svgo_optimize := fun _ => Ok "<svg/>";
     ttf2woff2 := fun _ => Ok "wOF2";
     exec := exec bare_host |}.


(** A process started in the root of the filesystem. *)
Definition at_root : Host :=
  {| cwd := "/";
     mkdir_rejects := fun _ => false;
     sharp_metadata := sharp_metadata bare_host;
     sharp_raw := sharp_raw bare_host;
     sharp_toFile := sharp_toFile bare_host;
     svgo_optimize := svgo_optimize bare_host;
     ttf2woff2 := ttf2woff2 bare_host;
     exec := exec bare_host |}.

(** [keeps p I J E m]: run in a state whose [outputFilePath] satisfies [I],
    [m] leaves what is stored at the path [p] as it was, and ends with an
    [outputFilePath] that satisfies [J] when it returns and [E] when it
    throws. *)
Definition keeps (p : string) (I J E : string -> Prop) {A} (m : M A) : Prop :=
  forall s, I (outputFilePath s) ->
    files (m s).2 !! p = files s !! p
    /\ match (m s).1 with
       | Ok _ => J (outputFilePath (m s).2)
       | Throw _ => E (outputFilePath (m s).2)
       end.

(** [leaves_dirs m]: [m] makes and removes no directory. *)
Definition leaves_dirs {A} (m : M A) : Prop :=
  forall s, dirs (m s).2 = dirs s.

(** * Properties *)

(** ** Strings *)

Section Strings.

Implicit Types s t p cur : string.

Lemma append_nil s : EmptyString +:+ s = s.
Proof. reflexivity. Qed.

Lemma append_cons a s t : String a s +:+ t = String a (s +:+ t).
Proof. reflexivity. Qed.

Lemma append_empty_r s : s +:+ EmptyString = s.
Proof. induction s as [|a s IH]; [done | by rewrite append_cons, IH]. Qed.

Lemma append_assoc s t p : (s +:+ t) +:+ p = s +:+ (t +:+ p).
Proof. induction s as [|a s IH]; [done | by rewrite !append_cons, IH]. Qed.

Lemma append_inj_l s t p : s +:+ t = s +:+ p -> t = p.
Proof.
  induction s as [|a s IH]; [done |].
  rewrite !append_cons. intros [= H]. auto.
Qed.

Lemma length_append s t : String.length (s +:+ t) = (String.length s + String.length t)%nat.
Proof. induction s as [|a s IH]; [done | rewrite append_cons; simpl; by rewrite IH]. Qed.

Lemma strip_prefix_append p s : Js.strip_prefix p (p +:+ s) = Some s.
Proof.
  induction p as [|a p IH]; [done |].
  rewrite append_cons. simpl. by rewrite Ascii.eqb_refl.
Qed.

Lemma drop_append s t : Js.drop (String.length s) (s +:+ t) = t.
Proof. induction s as [|a s IH]; [by destruct t | by rewrite append_cons]. Qed.

Lemma take_all s : Js.take (String.length s) s = s.
Proof. induction s as [|a s IH]; simpl; [done | by rewrite IH]. Qed.

(** [(s + t).substring(s.length)] is [t]. *)
Lemma substring_from_append s t : Js.substring_from (s +:+ t) (Js.len s) = t.
Proof.
  unfold Js.substring_from, Js.substring, Js.len.
  rewrite length_append, Nat2Z.inj_add.
  set (n := Z.of_nat (String.length s)). set (m := Z.of_nat (String.length t)).
  assert (0 <= n) by (subst n; lia). assert (0 <= m) by (subst m; lia).
  replace (Z.min (Z.max 0 (Z.min n (n + m))) (Z.max 0 (Z.min (n + m) (n + m)))) with n by lia.
  replace (Z.max (Z.max 0 (Z.min n (n + m))) (Z.max 0 (Z.min (n + m) (n + m)))) with (n + m) by lia.
  replace (n + m - n) with m by lia.
  subst n m. rewrite !Nat2Z.id, drop_append. apply take_all.
Qed.

Lemma split_from_sep_free c s t cur :
  (forall a, a ∈ String.list_ascii_of_string s -> a <> c) ->
  Js.split_from c (s +:+ t) cur = Js.split_from c t (cur +:+ s).
Proof.
  revert cur. induction s as [|a s IH]; intros cur Hs.
  - by rewrite append_empty_r.
  - rewrite append_cons. simpl. destruct (Ascii.eqb_spec a c) as [->|_].
    + exfalso. apply (Hs c); [left | done].
    + rewrite IH, append_assoc; [done |].
      intros b Hb. apply Hs. by right.
Qed.

Lemma sep_free_spec s : sep_free s = true -> forall a, a ∈ String.list_ascii_of_string s -> a <> Path.sep.
Proof.
  induction s as [|b s IH]; simpl; intros H a Ha.
  - by apply elem_of_nil in Ha.
  - apply andb_true_iff in H as [Hb Hs].
    apply elem_of_cons in Ha as [->|Ha]; [| by apply IH].
    intros ->. by rewrite Ascii.eqb_refl in Hb.
Qed.

Lemma join_cons c s x l : Js.join c (s :: x :: l) = s +:+ String c (Js.join c (x :: l)).
Proof. reflexivity. Qed.

(** Splitting what was joined gives the pieces back. *)
Lemma split_from_join l s cur :
  Forall (fun x => sep_free x = true) (s :: l) ->
  Js.split_from Path.sep (Js.join Path.sep (s :: l)) cur = (cur +:+ s) :: l.
Proof.
  revert s cur. induction l as [|x l IH]; intros s cur Hl.
  - cbn [Js.join].
    transitivity (Js.split_from Path.sep (s +:+ EmptyString) cur).
    { by rewrite append_empty_r. }
    rewrite split_from_sep_free; [done |].
    apply sep_free_spec. by inversion Hl.
  - rewrite join_cons.
    inversion Hl as [|? ? Hs Hl']; subst.
    rewrite split_from_sep_free by by apply sep_free_spec.
    cbn [Js.split_from]. rewrite Ascii.eqb_refl. f_equal.
    by rewrite IH.
Qed.

Lemma split_path_of l :
  Forall (fun x => sep_free x = true) l -> Js.split Path.sep (path_of l) = EmptyString :: l.
Proof.
  intros Hl. unfold Js.split, path_of. by rewrite split_from_join by by constructor.
Qed.

Lemma join_app c l1 x l2 :
  Js.join c (l1 ++ x :: l2) =
  match l1 with [] => Js.join c (x :: l2) | _ => Js.join c l1 +:+ String c (Js.join c (x :: l2)) end.
Proof.
  induction l1 as [|a l1 IH]; [done |].
  destruct l1 as [|b l1]; [done |].
  change ((a :: b :: l1) ++ x :: l2) with (a :: b :: (l1 ++ x :: l2)).
  rewrite !join_cons.
  change (b :: l1 ++ x :: l2) with ((b :: l1) ++ x :: l2).
  by rewrite IH, append_assoc, append_cons.
Qed.

Lemma path_of_app l1 x l2 : path_of (l1 ++ x :: l2) = path_of l1 +:+ path_of (x :: l2).
Proof.
  unfold path_of.
  change (EmptyString :: l1 ++ x :: l2) with ((EmptyString :: l1) ++ x :: l2).
  by rewrite join_app.
Qed.

End Strings.

(** ** Resolving against a normalised working directory *)

Section Resolve.

Lemma plain_sep_free s : plain s = true -> sep_free s = true.
Proof. unfold plain. rewrite !andb_true_iff. tauto. Qed.

Lemma Forall_plain_sep_free l :
  Forall (fun x => plain x = true) l -> Forall (fun x => sep_free x = true) l.
Proof. intros H. eapply Forall_impl; [exact H |]. apply plain_sep_free. Qed.

Lemma normalize_segments_plain above l rest acc :
  Forall (fun x => plain x = true) l ->
  Path.normalize_segments above (l ++ rest) acc = Path.normalize_segments above rest (rev l ++ acc).
Proof.
  revert acc. induction l as [|s l IH]; intros acc Hl; [done |].
  inversion Hl as [|? ? Hs Hl']; subst.
  unfold plain in Hs. rewrite !andb_true_iff, !negb_true_iff in Hs.
  destruct Hs as [[[_ H0] H1] H2].
  cbn [app Path.normalize_segments]. rewrite H0, H1, H2. cbn [orb].
  rewrite IH by done. cbn [rev]. by rewrite <- app_assoc.
Qed.

Lemma normalizeString_path_of root tail :
  Forall (fun x => plain x = true) root ->
  Forall (fun x => sep_free x = true) tail ->
  Path.normalizeString (path_of (root ++ tail)) false =
  Js.join Path.sep (Path.normalize_segments false tail (rev root)).
Proof.
  intros Hroot Htail. unfold Path.normalizeString.
  rewrite split_path_of.
  - cbn [Path.normalize_segments String.eqb orb].
    by rewrite normalize_segments_plain, app_nil_r.
  - apply Forall_app. split; [by apply Forall_plain_sep_free | done].
Qed.

Lemma path_of_nonempty x l : String Path.sep (Js.join Path.sep (x :: l)) = path_of (x :: l).
Proof. reflexivity. Qed.

(** [path.resolve('./')] is the working directory. *)
Lemma resolve_dot root :
  root <> [] -> Forall (fun x => plain x = true) root ->
  Path.resolve (path_of root) "./" = path_of root.
Proof.
  intros Hne Hroot. unfold Path.resolve.
  change (Path.isAbsolute "./") with false. cbv beta iota zeta.
  change (path_of root +:+ "/" +:+ "./" +:+ "/") with (path_of root +:+ path_of ["."; ""; ""]).
  rewrite <- path_of_app, normalizeString_path_of by (done || by repeat constructor).
  cbn [Path.normalize_segments String.eqb orb]. rewrite rev_involutive.
  destruct root as [|x l]; [done |]. apply path_of_nonempty.
Qed.

(** [path.resolve('./public_dev')] is its child [public_dev]. *)
Lemma resolve_public_dev root :
  Forall (fun x => plain x = true) root ->
  Path.resolve (path_of root) "./public_dev" = path_of (root ++ ["public_dev"]).
Proof.
  intros Hroot. unfold Path.resolve.
  change (Path.isAbsolute "./public_dev") with false. cbv beta iota zeta.
  change (path_of root +:+ "/" +:+ "./public_dev" +:+ "/")
    with (path_of root +:+ path_of ["."; "public_dev"; ""]).
  rewrite <- path_of_app, normalizeString_path_of by (done || by repeat constructor).
  cbn. rewrite rev_involutive.
  destruct root as [|x l]; [done |].
  change ((x :: l) ++ ["public_dev"]) with (x :: (l ++ ["public_dev"])).
  apply path_of_nonempty.
Qed.

End Resolve.

(** ** The mapped path *)

Section Mirror.

Implicit Types s t p q u : string.

Lemma len_cons a s : Js.len (String a s) = Js.len s + 1.
Proof. unfold Js.len. cbn [String.length]. lia. Qed.

Lemma lastIndexOf_from_append c s t i acc :
  Js.lastIndexOf_from c (s +:+ t) i acc =
  Js.lastIndexOf_from c t (i + Js.len s) (Js.lastIndexOf_from c s i acc).
Proof.
  revert i acc. induction s as [|a s IH]; intros i acc.
  - rewrite append_nil. cbn. by rewrite Z.add_0_r.
  - rewrite append_cons. cbn [Js.lastIndexOf_from]. rewrite IH, len_cons.
    by replace (i + 1 + Js.len s) with (i + (Js.len s + 1)) by lia.
Qed.

Lemma lastIndexOf_from_sep_free s i acc :
  sep_free s = true -> Js.lastIndexOf_from Path.sep s i acc = acc.
Proof.
  revert i acc. induction s as [|a s IH]; intros i acc Hs; [done |].
  cbn in Hs. apply andb_true_iff in Hs as [Ha Hs]. apply negb_true_iff in Ha.
  cbn [Js.lastIndexOf_from]. rewrite Ha. by apply IH.
Qed.

(** The last separator of a path is the one before its last segment. *)
Lemma lastIndexOf_last_segment p file :
  sep_free file = true ->
  Js.lastIndexOf Path.sep (p +:+ String Path.sep file) = Js.len p.
Proof.
  intros Hfile. unfold Js.lastIndexOf. rewrite lastIndexOf_from_append.
  cbn [Js.lastIndexOf_from]. rewrite Ascii.eqb_refl.
  by rewrite lastIndexOf_from_sep_free.
Qed.

Lemma take_append s t : Js.take (String.length s) (s +:+ t) = s.
Proof.
  induction s as [|a s IH]; [by destruct t |].
  rewrite append_cons. cbn. by rewrite IH.
Qed.

Lemma substring_prefix s t : Js.substring (s +:+ t) 0 (Js.len s) = s.
Proof.
  unfold Js.substring, Js.len. rewrite length_append, Nat2Z.inj_add.
  set (n := Z.of_nat (String.length s)). set (m := Z.of_nat (String.length t)).
  assert (0 <= n) by (subst n; lia). assert (0 <= m) by (subst m; lia).
  replace (Z.min (Z.max 0 (Z.min 0 (n + m))) (Z.max 0 (Z.min n (n + m)))) with 0 by lia.
  replace (Z.max (Z.max 0 (Z.min 0 (n + m))) (Z.max 0 (Z.min n (n + m)))) with n by lia.
  rewrite Z.sub_0_r. subst n. rewrite Nat2Z.id. cbn [Z.to_nat]. apply take_append.
Qed.

Lemma sep_free_append s t : sep_free (s +:+ t) = sep_free s && sep_free t.
Proof.
  induction s as [|a s IH]; [done |].
  rewrite append_cons. cbn. by rewrite IH, andb_assoc.
Qed.

(** A match of [p] at the head of [s +:+ u] lies in [s], or starts in
    [s] and ends in [u]. *)
Lemma strip_prefix_append_inv p s u x :
  Js.strip_prefix p (s +:+ u) = Some x ->
  (exists y, Js.strip_prefix p s = Some y)
  \/ (exists q, p = s +:+ q /\ q <> EmptyString /\ Js.strip_prefix q u = Some x).
Proof.
  revert s. induction p as [|a p IH]; intros s Hp.
  - left. by exists s.
  - destruct s as [|b s].
    + right. exists (String a p). by rewrite append_nil in *.
    + rewrite append_cons in Hp. cbn in Hp. cbn.
      destruct (Ascii.eqb_spec a b) as [->|]; [| done].
      destruct (IH s Hp) as [Hl | (q & -> & Hq & Hu)]; [by left |].
      right. exists q. by rewrite append_cons.
Qed.

Lemma includes_suffix p s t : Js.includes p (s +:+ t) = false -> Js.strip_prefix p t = None.
Proof.
  induction s as [|a s IH].
  - rewrite append_nil. destruct t; cbn; by destruct (Js.strip_prefix p _).
  - rewrite append_cons. cbn [Js.includes].
    destruct (Js.strip_prefix p (String a (s +:+ t))); [done | apply IH].
Qed.

(** No occurrence of [/public_dev] begins in a text without one and ends
    in the [/public_dev] that follows it. *)
Lemma no_match_across p s u :
  Js.includes "/public_dev" (p +:+ s) = false -> s <> EmptyString ->
  Js.strip_prefix "/public_dev" (s +:+ "/public_dev" +:+ u) = None.
Proof.
  intros Hinc Hs.
  destruct (Js.strip_prefix "/public_dev" (s +:+ "/public_dev" +:+ u)) as [x|] eqn:Hx; [| done].
  exfalso. apply strip_prefix_append_inv in Hx as [[y Hy] | (q & Hq & Hne & Hu)].
  - by rewrite (includes_suffix _ _ _ Hinc) in Hy.
  - destruct s as [|a s]; [done |]. rewrite append_cons in Hq. injection Hq as _ Hq.
    destruct q as [|c q]; [done |].
    assert (sep_free (s +:+ String c q) = true) as Hfree by by rewrite <- Hq.
    rewrite sep_free_append in Hfree. apply andb_true_iff in Hfree as [_ Hc].
    cbn in Hc. apply andb_true_iff in Hc as [Hc _]. apply negb_true_iff in Hc.
    rewrite append_cons in Hu. cbn [Js.strip_prefix] in Hu.
    destruct (Ascii.eqb_spec c "/"%char) as [->|]; [| done].
    by rewrite Ascii.eqb_refl in Hc.
Qed.

Lemma replace_head p r u : Js.replace p r (p +:+ u) = r +:+ u.
Proof.
  destruct (p +:+ u) as [|a v] eqn:E; cbn [Js.replace]; by rewrite <- E, strip_prefix_append.
Qed.

(** The replacement acts on the [/public_dev] that follows a text
    without occurrence. *)
Lemma replace_public_dev p s u :
  Js.includes "/public_dev" (p +:+ s) = false ->
  Js.replace "/public_dev" "/public" (s +:+ "/public_dev" +:+ u) = s +:+ "/public" +:+ u.
Proof.
  revert p. induction s as [|a s IH]; intros p Hinc.
  - rewrite !append_nil. apply replace_head.
  - rewrite (append_cons a s). cbn [Js.replace].
    rewrite <- (append_cons a s), (no_match_across p) by done.
    rewrite !append_cons. f_equal. apply (IH (p +:+ String a EmptyString)).
    by rewrite append_assoc.
Qed.

End Mirror.

Section MirrorPath.

Implicit Types s t p stem ext : string.

Lemma path_of_cons x l : path_of (x :: l) = String Path.sep (x +:+ path_of l).
Proof.
  unfold path_of. destruct l as [|y l].
  - cbn [Js.join]. by rewrite append_nil, append_empty_r.
  - by rewrite !join_cons, !append_nil.
Qed.

Lemma eqb_append_cons_empty s a t : String.eqb (s +:+ String a t) EmptyString = false.
Proof. by destruct s. Qed.

Lemma last_char s : s <> EmptyString -> exists s' a, s = s' +:+ String a EmptyString.
Proof.
  induction s as [|b s IH]; [done |]. intros _. destruct s as [|c s].
  - by exists EmptyString, b.
  - destruct IH as (s' & a & ->); [done |]. exists (String b s'), a. by rewrite append_cons.
Qed.

Lemma ends_with_sep_last s a :
  Path.ends_with_sep (s +:+ String a EmptyString) = Ascii.eqb a Path.sep.
Proof.
  unfold Path.ends_with_sep, Js.strip_suffix. rewrite length_append. cbn [String.length].
  replace (String.length s + 1 - 1)%nat with (String.length s) by lia.
  rewrite drop_append.
  replace (1 <=? String.length s + 1)%nat with true by (symmetry; apply Nat.leb_le; lia).
  cbn [andb String.eqb]. by destruct (Ascii.eqb a Path.sep).
Qed.

Lemma ends_with_sep_segment s stem :
  sep_free stem = true -> stem <> EmptyString -> Path.ends_with_sep (s +:+ stem) = false.
Proof.
  intros Hfree Hne. destruct (last_char stem Hne) as (s' & a & ->).
  rewrite sep_free_append in Hfree. apply andb_true_iff in Hfree as [_ Ha].
  cbn in Ha. rewrite andb_true_r in Ha. apply negb_true_iff in Ha.
  by rewrite <- append_assoc, ends_with_sep_last.
Qed.

Lemma path_of_snoc l s : path_of (l ++ [s]) = path_of l +:+ String Path.sep s.
Proof. by rewrite path_of_app, path_of_cons, append_empty_r. Qed.

Lemma ends_with_sep_path_of l stem :
  sep_free stem = true -> stem <> EmptyString ->
  Path.ends_with_sep (path_of (l ++ [stem])) = false.
Proof.
  intros Hfree Hne. rewrite path_of_snoc.
  replace (path_of l +:+ String Path.sep stem) with ((path_of l +:+ "/") +:+ stem)
    by by rewrite append_assoc.
  by apply ends_with_sep_segment.
Qed.

Lemma plain_nonempty s : plain s = true -> s <> EmptyString.
Proof.
  unfold plain. rewrite !andb_true_iff, !negb_true_iff. intros [[[_ H] _] _] ->. done.
Qed.

Lemma path_of_eqb_empty l : l <> [] -> String.eqb (path_of l) EmptyString = false.
Proof. destruct l; [done |]. by rewrite path_of_cons. Qed.

Lemma path_of_isAbsolute l : l <> [] -> Path.isAbsolute (path_of l) = true.
Proof.
  destruct l; [done |]. rewrite path_of_cons. intros _. cbn [Path.isAbsolute].
  apply Ascii.eqb_refl.
Qed.

(** Joining a normalised directory, written with a separator at its end,
    and a plain name. *)
Lemma join_directory_name l stem :
  l <> [] -> Forall (fun x => plain x = true) l -> plain stem = true ->
  Path.join (path_of l +:+ "/") stem = path_of (l ++ [stem]).
Proof.
  intros Hne Hl Hstem. pose proof (plain_nonempty _ Hstem) as Hnonempty.
  unfold Path.join. rewrite eqb_append_cons_empty.
  destruct (String.eqb_spec stem EmptyString) as [|_]; [done |].
  replace ((path_of l +:+ "/") +:+ "/" +:+ stem) with (path_of (l ++ [EmptyString; stem])).
  2: { rewrite path_of_app, !path_of_cons, !append_nil, append_assoc.
       unfold path_of. cbn [Js.join]. by rewrite append_empty_r. }
  unfold Path.normalize.
  rewrite path_of_eqb_empty, path_of_isAbsolute by by destruct l.
  cbn [negb].
  rewrite normalizeString_path_of;
    [| done | repeat constructor; by apply plain_sep_free].
  assert (Path.normalize_segments false [EmptyString; stem] (rev l) = l ++ [stem]) as ->.
  { change (Path.normalize_segments false [EmptyString; stem] (rev l))
      with (Path.normalize_segments false ([stem] ++ []) (rev l)).
    rewrite normalize_segments_plain by by constructor.
    cbn. by rewrite rev_involutive. }
  replace (l ++ [EmptyString; stem]) with ((l ++ [EmptyString]) ++ [stem])
    by by rewrite <- app_assoc.
  rewrite ends_with_sep_path_of; [| by apply plain_sep_free | done].
  destruct l as [|y l]; [done |].
  change ((y :: l) ++ [stem]) with (y :: (l ++ [stem])).
  destruct (l ++ [stem]) eqn:E; [by destruct l |].
  rewrite join_cons, eqb_append_cons_empty. by rewrite <- join_cons, <- E.
Qed.

End MirrorPath.

Section MirrorName.

Implicit Types s t p stem ext : string.

Lemma last_component_path_of l file :
  Forall (fun x => sep_free x = true) l -> sep_free file = true -> file <> EmptyString ->
  Path.last_component (path_of (l ++ [file])) = file.
Proof.
  intros Hl Hfile Hne. unfold Path.last_component.
  rewrite split_path_of by (apply Forall_app; split; [done | by constructor]).
  change (EmptyString :: l ++ [file]) with ((EmptyString :: l) ++ [file]).
  rewrite filter_app, (filter_cons_True _ file) by done.
  change (filter (λ s : string, s ≠ EmptyString) []) with (@nil string).
  apply List.last_last.
Qed.

Lemma strip_suffix_append stem ext : Js.strip_suffix ext (stem +:+ ext) = Some stem.
Proof.
  unfold Js.strip_suffix. rewrite length_append.
  replace (String.length stem + String.length ext - String.length ext)%nat
    with (String.length stem) by lia.
  rewrite drop_append, take_append, String.eqb_refl.
  by replace (String.length ext <=? String.length stem + String.length ext)%nat with true
    by (symmetry; apply Nat.leb_le; lia).
Qed.

Lemma eqb_sep_free_path ext l :
  sep_free ext = true -> l <> [] -> String.eqb ext (path_of l) = false.
Proof.
  intros Hext Hl. destruct l as [|x l]; [done |]. rewrite path_of_cons.
  destruct ext as [|a e]; [done |]. cbn in Hext. apply andb_true_iff in Hext as [Ha _].
  apply negb_true_iff in Ha. cbn [String.eqb]. by rewrite Ha.
Qed.

(** [basename] removes the extension the name ends with. *)
Lemma basename_stem l stem ext :
  Forall (fun x => sep_free x = true) l ->
  sep_free stem = true -> stem <> EmptyString -> sep_free ext = true -> ext <> EmptyString ->
  Path.basename (path_of (l ++ [stem +:+ ext])) ext = stem.
Proof.
  intros Hl Hstem Hne Hext Hene. unfold Path.basename.
  rewrite last_component_path_of; [| done | by rewrite sep_free_append, Hstem, Hext | by destruct stem].
  destruct (String.eqb_spec ext EmptyString) as [|_]; [done |].
  rewrite eqb_sep_free_path by (done || by destruct l).
  rewrite strip_suffix_append.
  by destruct (String.eqb_spec stem EmptyString).
Qed.

End MirrorName.

(** For an input below the watch root whose name ends with the extension
    it is given, in a working directory whose path has no [/public_dev]
    in it, the mapped path is the input path with [public] in the place
    of [public_dev], the same directories in between, and the name
    without that extension. *)
Theorem mapped_path_mirrors (root between : list string) (stem ext : string) :
  Forall (fun x => plain x = true) root ->
  Forall (fun x => plain x = true) between ->
  plain stem = true -> sep_free ext = true -> ext <> EmptyString ->
  Js.includes "/public_dev" (path_of root) = false ->
  mapped_path (path_of (root ++ "public_dev" :: between ++ [stem +:+ ext])) ext
  = path_of (root ++ "public" :: between ++ [stem]).
Proof.
  intros Hroot Hbetween Hstem Hext Hene Hinc.
  pose proof (plain_sep_free _ Hstem) as Hfree. pose proof (plain_nonempty _ Hstem) as Hne.
  unfold mapped_path.
  replace (root ++ "public_dev" :: between ++ [stem +:+ ext])
    with ((root ++ "public_dev" :: between) ++ [stem +:+ ext])
    by (by rewrite <- app_assoc).
  rewrite basename_stem; [| | done..].
  2: { apply Forall_app. split; [by apply Forall_plain_sep_free |].
       constructor; [done | by apply Forall_plain_sep_free]. }
  rewrite path_of_snoc, lastIndexOf_last_segment, substring_prefix
    by by rewrite sep_free_append, Hfree, Hext.
  rewrite path_of_app, path_of_cons.
  change (String Path.sep ("public_dev" +:+ path_of between))
    with ("/public_dev" +:+ path_of between).
  rewrite (replace_public_dev EmptyString) by done.
  change ("/public" +:+ path_of between) with (String Path.sep ("public" +:+ path_of between)).
  rewrite <- path_of_cons, <- path_of_app.
  rewrite join_directory_name; [| by destruct root | | done].
  - by rewrite <- app_assoc.
  - apply Forall_app. split; [done |]. by constructor.
Qed.

Lemma mapped_path_mirrors_witness :
  mapped_path "/proj/public_dev/a/b/photo.png" ".png" = "/proj/public/a/b/photo".
Proof.
  apply (mapped_path_mirrors ["proj"] ["a"; "b"] "photo" ".png");
    first [ by repeat constructor | discriminate | reflexivity ].
Defined.

(** C9: the extension is lowercased before [basename] is asked to remove
    it, so an upper-case extension stays in the mapped path. *)
Theorem uppercase_extension_survives_mapping :
  Js.toLowerCase (Path.extname "/proj/public_dev/a/Photo.PNG") = ".png"
  /\ Backfill.matches "a/Photo.PNG" = true
  /\ mapped_path "/proj/public_dev/a/Photo.PNG" ".png" = "/proj/public/a/Photo.PNG"
  /\ mapped_path "/proj/public_dev/a/photo.png" ".png" = "/proj/public/a/photo".
Proof. repeat split; reflexivity. Qed.

(** ** The format of a raster image *)

(** C3: the format is png exactly when the part of the path after the
    working directory has two separators.  Under the watch root
    [public_dev], a child of a working directory that is not the root of
    the filesystem, these are the files that lie directly in the watch
    root: one segment below it, not two.  Every other image, the ones two
    segments below the watch root among them, is encoded as avif. *)
Theorem image_format_by_depth (h : Host) (root segs : list string) :
  root <> [] -> Forall (fun x => plain x = true) root ->
  Forall (fun x => sep_free x = true) segs ->
  cwd h = path_of root ->
  watchDir h = path_of (root ++ ["public_dev"])
  /\ image_format h (path_of (root ++ "public_dev" :: segs))
     = (if bool_decide (length segs = 1%nat) then "png" else "avif").
Proof.
  intros Hne Hroot Hsegs Hcwd. unfold watchDir, image_format. rewrite Hcwd.
  split; [by apply resolve_public_dev |].
  rewrite resolve_dot, path_of_app, substring_from_append by done.
  rewrite split_path_of by by constructor.
  cbn [length]. case_bool_decide as Hlen.
  - by rewrite Hlen.
  - destruct (Z.eqb_spec (Z.of_nat (S (S (length segs))) - 1) 2); [lia | done].
Qed.

Lemma image_format_by_depth_witness :
  watchDir bare_host = "/proj/public_dev"
  /\ image_format bare_host "/proj/public_dev/icon.png" = "png".
Proof.
  apply (image_format_by_depth bare_host ["proj"] ["icon.png"]);
    [discriminate | by repeat constructor | by repeat constructor | reflexivity].
Defined.

(** C3, as stated, fails: an image two segments below the watch root is
    encoded as avif, and an image one segment below it as png. *)
Lemma image_two_below_watch_root_is_avif :
  depth_below (watchDir bare_host) "/proj/public_dev/a/icon.png" = Some 2%nat
  /\ image_format bare_host "/proj/public_dev/a/icon.png" = "avif"
  /\ depth_below (watchDir bare_host) "/proj/public_dev/icon.png" = Some 1%nat
  /\ image_format bare_host "/proj/public_dev/icon.png" = "png".
Proof. repeat split; reflexivity. Qed.









(** For an image whose metadata report no alpha channel the raw buffer
    is never asked for: after the metadata the encoder is given the file
    itself, with the resize options, and nothing else is decoded. *)
Theorem image_without_alpha_skips_repack (h : Host) (filePath input output : string)
    (s : State) (m : Metadata) :
  sharp_metadata h filePath = Ok m ->
  default false (hasAlpha m) = false ->
  exists rest,
    trace (image_job h filePath input output s).2 =
    trace s ++ EvConsole (Queueing input) :: EvMetadata filePath
      :: EvToFile (FromFile filePath (resize_options m)) (image_format h filePath)
           (encode_options (image_format h filePath))
           (outputFilePath s +:+ "." +:+ image_format h filePath)
      :: rest
    /\ Forall (fun e => forall p r, e <> EvRaw p r) rest.
Proof.
  intros Hmeta Halpha.
  unfold image_job, metadata, toFile, report, stat_size, try_catch, bind, console, emit,
    modify, read, get, lift, ret, throw.
  cbn [fst snd trace outputFilePath set_trace set_outputFilePath files set_files
       set_beforeSize set_afterSize beforeSize afterSize].
  rewrite Hmeta. cbn [fst snd trace outputFilePath set_trace set_outputFilePath files set_files].
  rewrite Halpha.
  cbn [fst snd trace outputFilePath set_trace set_outputFilePath files set_files].
  destruct (sharp_toFile h _ _ _ _) as [c|c|];
    cbn [fst snd trace outputFilePath set_trace set_outputFilePath files set_files
         set_beforeSize set_afterSize beforeSize afterSize];
    repeat match goal with
      | |- context [match ?m !! ?k with _ => _ end] =>
          destruct (m !! k);
          cbn [fst snd trace outputFilePath set_trace set_outputFilePath files set_files
               set_beforeSize set_afterSize beforeSize afterSize]
      end;
    rewrite <- ?app_assoc; cbn [app];
    (eexists; split; [reflexivity | repeat constructor; discriminate]).
Qed.

Lemma image_without_alpha_skips_repack_witness :
  exists rest,
    trace (image_job image_works "/proj/public_dev/a/b/photo.png" "/public_dev/a/b/photo.png"
             "/public/a/b/photo" (set_outputFilePath "/proj/public/a/b/photo" (project ∅))).2 =
    trace (set_outputFilePath "/proj/public/a/b/photo" (project ∅))
    ++ EvConsole (Queueing "/public_dev/a/b/photo.png")
      :: EvMetadata "/proj/public_dev/a/b/photo.png"
      :: EvToFile (FromFile "/proj/public_dev/a/b/photo.png" (resize_options opaque_image))
           (image_format image_works "/proj/public_dev/a/b/photo.png")
           (encode_options (image_format image_works "/proj/public_dev/a/b/photo.png"))
           (outputFilePath (set_outputFilePath "/proj/public/a/b/photo" (project ∅))
            +:+ "." +:+ image_format image_works "/proj/public_dev/a/b/photo.png")
      :: rest
    /\ Forall (fun e => forall p r, e <> EvRaw p r) rest.
Proof.
  apply (image_without_alpha_skips_repack image_works _ _ _ _ opaque_image); reflexivity.
Defined.

(** The resize options of an image whose two dimensions are known and not
    zero: none when both are at most 1440, else the larger dimension is
    brought to 1440, the height when they are equal. *)
Theorem resize_options_ceiling (w ht : Z) (alpha : option bool) :
  0 < w -> 0 < ht ->
  resize_options {| width := Some w; height := Some ht; hasAlpha := alpha |} =
  if (w <=? 1440) && (ht <=? 1440) then NoResize
  else if ht <? w then ToWidth 1440 else ToHeight 1440.
Proof.
  intros Hw Hh. unfold resize_options, truthy. cbn [width height default from_option id].
  destruct (Z.eqb_spec w 0); [lia |]. destruct (Z.eqb_spec ht 0); [lia |]. cbn [negb andb].
  destruct (Z.ltb_spec 1440 w); destruct (Z.ltb_spec 1440 ht);
    destruct (Z.leb_spec w 1440); destruct (Z.leb_spec ht 1440); try lia; reflexivity.
Qed.

Lemma resize_options_ceiling_witness :
  resize_options {| width := Some 4000; height := Some 3000; hasAlpha := None |} = ToWidth 1440.
Proof. apply (resize_options_ceiling 4000 3000 None); reflexivity. Defined.

(** ** The video encoder *)

Section Video.

Variables encoders filePath out : string.

Lemma libaom_not_nvenc : libaom_command filePath out <> nvenc_command filePath out.
Proof.
  unfold libaom_command, nvenc_command. rewrite !append_cons, append_nil.
  intros [= H]. apply append_inj_l in H. discriminate H.
Qed.

Lemma libaom_not_qsv : libaom_command filePath out <> qsv_command filePath out.
Proof. unfold libaom_command, qsv_command. rewrite !append_cons. discriminate. Qed.

Lemma libaom_not_amf : libaom_command filePath out <> amf_command filePath out.
Proof.
  unfold libaom_command, amf_command. rewrite !append_cons, append_nil.
  intros [= H]. apply append_inj_l in H. discriminate H.
Qed.

Lemma nvenc_not_qsv : nvenc_command filePath out <> qsv_command filePath out.
Proof. unfold nvenc_command, qsv_command. rewrite !append_cons. discriminate. Qed.

Lemma nvenc_not_amf : nvenc_command filePath out <> amf_command filePath out.
Proof.
  unfold nvenc_command, amf_command. rewrite !append_cons, append_nil.
  intros [= H]. apply append_inj_l in H. discriminate H.
Qed.

Lemma qsv_not_amf : qsv_command filePath out <> amf_command filePath out.
Proof. unfold qsv_command, amf_command. rewrite !append_cons. discriminate. Qed.

End Video.

(** C8: whatever the encoder listing, the command that is run is read off
    the listing by a fixed priority, and each choice is one fixed command
    line around the quoted input path and the quoted mapped path:
    - the NVIDIA one, [-c:v av1_nvenc -preset p7 -cq 30 -b:v 0], exactly when
      the listing names av1_nvenc;
    - the Intel one, with its device option before the input and
      [-c:v av1_qsv -preset veryslow -q:v 30 -b:v 0], exactly when the
      listing names av1_qsv and not av1_nvenc;
    - the AMD one, [-c:v av1_amf -usage quality -rc vbr_quality -q:v 20
      -b:v 0], exactly when the listing names av1_amf and neither of the
      other two;
    - the software one, [-c:v libaom-av1 -crf 30 -b:v 0 -preset slow],
      exactly when the listing names none of the three.
    The four command lines differ from one another for every pair of
    paths, so the choice can be read off the command. *)
Theorem encoder_priority (encoders filePath out : string) :
  let q := String "034"%char EmptyString in
  let input := q +:+ filePath +:+ q in
  let output := q +:+ out +:+ q in
  let command := ffmpegCommand encoders filePath out in
  let nvenc := Js.includes "av1_nvenc" encoders in
  let qsv := Js.includes "av1_qsv" encoders in
  let amf := Js.includes "av1_amf" encoders in
  (command = "ffmpeg -i " +:+ input
             +:+ " -c:v av1_nvenc -preset p7 -cq 30 -b:v 0 " +:+ output +:+ ".mp4 -y"
   <-> nvenc = true)
  /\ (command = "ffmpeg -init_hw_device vaapi=va:/dev/dri/renderD128 -i " +:+ input
                +:+ " -c:v av1_qsv -preset veryslow -q:v 30 -b:v 0 " +:+ output +:+ ".mp4 -y"
      <-> nvenc = false /\ qsv = true)
  /\ (command = "ffmpeg -i " +:+ input
                +:+ " -c:v av1_amf -usage quality -rc vbr_quality -q:v 20 -b:v 0 "
                +:+ output +:+ ".mp4 -y"
      <-> nvenc = false /\ qsv = false /\ amf = true)
  /\ (command = "ffmpeg -i " +:+ input
                +:+ " -c:v libaom-av1 -crf 30 -b:v 0 -preset slow " +:+ output +:+ ".mp4 -y"
      <-> nvenc = false /\ qsv = false /\ amf = false).
Proof.
  intros q input output command nvenc qsv amf.
  change ("ffmpeg -i " +:+ input
          +:+ " -c:v av1_nvenc -preset p7 -cq 30 -b:v 0 " +:+ output +:+ ".mp4 -y")
    with (nvenc_command filePath out).
  change ("ffmpeg -init_hw_device vaapi=va:/dev/dri/renderD128 -i " +:+ input
          +:+ " -c:v av1_qsv -preset veryslow -q:v 30 -b:v 0 " +:+ output +:+ ".mp4 -y")
    with (qsv_command filePath out).
  change ("ffmpeg -i " +:+ input
          +:+ " -c:v av1_amf -usage quality -rc vbr_quality -q:v 20 -b:v 0 "
          +:+ output +:+ ".mp4 -y")
    with (amf_command filePath out).
  change ("ffmpeg -i " +:+ input
          +:+ " -c:v libaom-av1 -crf 30 -b:v 0 -preset slow " +:+ output +:+ ".mp4 -y")
    with (libaom_command filePath out).
  pose proof (libaom_not_nvenc filePath out) as H1.
  pose proof (libaom_not_qsv filePath out) as H2.
  pose proof (libaom_not_amf filePath out) as H3.
  pose proof (nvenc_not_qsv filePath out) as H4.
  pose proof (nvenc_not_amf filePath out) as H5.
  pose proof (qsv_not_amf filePath out) as H6.
  subst command. unfold ffmpegCommand. fold nvenc qsv amf.
  destruct nvenc, qsv, amf; repeat split; try done; try (by intros [? ?]);
    try (by intros (? & ? & ?)); intros E; exfalso; congruence.
Qed.

Lemma encoder_priority_witness :
  ffmpegCommand " V....D av1_qsv  V....D av1_amf  V....D libaom-av1"
    "/proj/public_dev/clip.mp4" "/proj/public/clip"
  = "ffmpeg -init_hw_device vaapi=va:/dev/dri/renderD128 -i "
    +:+ String "034"%char "/proj/public_dev/clip.mp4" +:+ String "034"%char EmptyString
    +:+ " -c:v av1_qsv -preset veryslow -q:v 30 -b:v 0 "
    +:+ String "034"%char "/proj/public/clip" +:+ String "034"%char EmptyString
    +:+ ".mp4 -y".
Proof.
  apply (encoder_priority " V....D av1_qsv  V....D av1_amf  V....D libaom-av1"
           "/proj/public_dev/clip.mp4" "/proj/public/clip"). split; reflexivity.
Defined.

(** ** Calls only add to the trace *)

Create HintDb appends.

Section Appends.

Context {A B : Type}.

Lemma appends_ret (a : A) : appends (ret a).
Proof. intros s. exists []. by rewrite app_nil_r. Qed.

Lemma appends_throw (e : Error) : appends (@throw A e).
Proof. intros s. exists []. by rewrite app_nil_r. Qed.

Lemma appends_bind (m : M A) (k : A -> M B) :
  appends m -> (forall a, appends (k a)) -> appends (bind m k).
Proof.
  intros Hm Hk s. unfold bind. destruct (Hm s) as [r1 H1].
  destruct (m s) as [[a|e] s']; cbn in *.
  - destruct (Hk a s') as [r2 H2]. exists (r1 ++ r2). by rewrite H2, H1, app_assoc.
  - by exists r1.
Qed.

Lemma appends_try_catch (m : M A) (handler : Error -> M A) :
  appends m -> (forall e, appends (handler e)) -> appends (try_catch m handler).
Proof.
  intros Hm Hk s. unfold try_catch. destruct (Hm s) as [r1 H1].
  destruct (m s) as [[a|e] s']; cbn in *.
  - by exists r1.
  - destruct (Hk e s') as [r2 H2]. exists (r1 ++ r2). by rewrite H2, H1, app_assoc.
Qed.

Lemma appends_read (f : State -> A) : appends (read f).
Proof. intros s. exists []. by rewrite app_nil_r. Qed.

Lemma appends_lift (r : Result A) : appends (lift r).
Proof. destruct r; [apply appends_ret | apply appends_throw]. Qed.

End Appends.

Lemma appends_get : appends get.
Proof. intros s. exists []. by rewrite app_nil_r. Qed.

Lemma appends_modify f : (forall s, trace (f s) = trace s) -> appends (modify f).
Proof. intros Hf s. exists []. cbn. by rewrite Hf, app_nil_r. Qed.

Lemma appends_emit e : appends (emit e).
Proof. intros s. by exists [e]. Qed.

Lemma appends_swallow m : appends m -> appends (swallow m).
Proof. intros Hm. apply appends_try_catch; [done |]. intros _. apply appends_ret. Qed.

Lemma appends_if {A} (b : bool) (m1 m2 : M A) : appends m1 -> appends m2 -> appends (if b then m1 else m2).
Proof. by destruct b. Qed.

#[local] Hint Resolve appends_ret appends_throw appends_read appends_lift appends_get
  appends_emit appends_swallow appends_if : appends.
#[local] Hint Extern 1 (appends (bind _ _)) => apply appends_bind; [| intros ?] : appends.
#[local] Hint Extern 1 (appends (try_catch _ _)) => apply appends_try_catch; [| intros ?] : appends.
#[local] Hint Extern 1 (appends (modify _)) => apply appends_modify; intros ?; reflexivity : appends.
#[local] Hint Extern 1 (appends (console _)) => apply appends_emit : appends.
#[local] Hint Extern 2 (appends (match ?x with _ => _ end)) => destruct x : appends.

Lemma appends_mkdir h dir : appends (mkdir h dir).
Proof. unfold mkdir. auto 10 with appends. Qed.

Lemma appends_unlink p : appends (unlink p).
Proof. unfold unlink. auto 10 with appends. Qed.

Lemma appends_readFile p : appends (readFile p).
Proof. unfold readFile. auto 10 with appends. Qed.

Lemma appends_store p c : appends (store p c).
Proof. unfold store. auto 10 with appends. Qed.

#[local] Hint Resolve appends_mkdir appends_unlink appends_readFile appends_store : appends.

Lemma appends_writeFile p c : appends (writeFile p c).
Proof. unfold writeFile. auto 10 with appends. Qed.

Lemma appends_copy_completes src dst : appends (copy_completes src dst).
Proof. unfold copy_completes. auto 10 with appends. Qed.

Lemma appends_stat_size p : appends (stat_size p).
Proof. unfold stat_size. auto 10 with appends. Qed.

Lemma appends_metadata h p : appends (metadata h p).
Proof. unfold metadata. auto 10 with appends. Qed.

Lemma appends_raw_toBuffer h p r : appends (raw_toBuffer h p r).
Proof. unfold raw_toBuffer. auto 10 with appends. Qed.

Lemma appends_toFile h input format options out : appends (toFile h input format options out).
Proof. unfold toFile. auto 10 with appends. Qed.

Lemma appends_execAsync h command : appends (execAsync h command).
Proof. unfold execAsync. auto 10 with appends. Qed.

#[local] Hint Resolve appends_writeFile appends_copy_completes appends_stat_size appends_metadata
  appends_raw_toBuffer appends_toFile appends_execAsync : appends.

Lemma appends_report filePath written_path input output :
  appends (report filePath written_path input output).
Proof. unfold report. auto 20 with appends. Qed.

#[local] Hint Resolve appends_report : appends.

Lemma appends_transcode h filePath ext : appends (transcode h filePath ext).
Proof.
  unfold transcode, image_job, svg_job, audio_job, video_job, font_job, ttf_job, woff2_job.
  auto 30 with appends.
Qed.

(** ** The video job runs the command chosen from the listing *)

Lemma execAsync_run (h : Host) (command : string) (s : State) :
  execAsync h command s =
  (if exit_ok (exec h command) then Ok (stdout (exec h command)) else Throw (Err "Command failed"),
   set_files (foldl (fun f kv => <[kv.1 := kv.2]> f) (files s) (written (exec h command)))
     (set_trace (trace s ++ [EvExec command]) s)).
Proof.
  unfold execAsync, bind, emit, modify, ret, throw. cbn.
  by destruct (exit_ok (exec h command)).
Qed.

(** When the probe succeeds, the job's next call is the command chosen
    from what the probe printed, for the current [outputFilePath]. *)
Theorem video_job_runs_selected_command (h : Host) (filePath input output : string) (s : State) :
  exit_ok (exec h "ffmpeg -encoders") = true ->
  exists rest,
    trace (video_job h filePath input output s).2 =
    trace s ++ EvConsole (Queueing input) :: EvExec "ffmpeg -encoders"
      :: EvExec (ffmpegCommand (stdout (exec h "ffmpeg -encoders")) filePath (outputFilePath s))
      :: rest.
Proof.
  intros Hprobe. unfold video_job.
  unfold bind at 1. unfold console, emit, modify. cbn [fst snd].
  unfold bind at 1. rewrite execAsync_run, Hprobe.
  unfold bind at 1, read. cbn [fst snd outputFilePath set_files set_trace].
  unfold bind at 1. rewrite execAsync_run.
  destruct (exit_ok (exec h (ffmpegCommand _ _ _))).
  - match goal with |- context [report ?a ?b ?c ?d ?s2] =>
      destruct (appends_report a b c d s2) as [r2 Hr2]; rewrite Hr2
    end.
    cbn [trace set_trace set_files]. rewrite <- !app_assoc. cbn. by eexists.
  - cbn [snd trace set_trace set_files]. rewrite <- !app_assoc. cbn. by eexists.
Qed.

Lemma video_job_runs_selected_command_witness :
  exists rest,
    trace (video_job software_only "/proj/public_dev/clip.mp4" "/public_dev/clip.mp4"
             "/public/clip" (set_outputFilePath "/proj/public/clip" (project ∅))).2 =
    trace (set_outputFilePath "/proj/public/clip" (project ∅))
    ++ EvConsole (Queueing "/public_dev/clip.mp4") :: EvExec "ffmpeg -encoders"
      :: EvExec (ffmpegCommand (stdout (exec software_only "ffmpeg -encoders"))
                   "/proj/public_dev/clip.mp4"
                   (outputFilePath (set_outputFilePath "/proj/public/clip" (project ∅))))
      :: rest.
Proof.
  apply (video_job_runs_selected_command software_only). reflexivity.
Defined.

(** ** What [optimise] does before it looks at the category *)

Section Prepare.

Variables (h : Host) (filePath ext : string) (s : State).

Let out := mapped_path filePath ext.
Let dir := Js.substring out 0 (Js.lastIndexOf Path.sep out).

#[local] Arguments mapped_path : simpl never.
#[local] Arguments Js.substring : simpl never.
#[local] Arguments Js.lastIndexOf : simpl never.
#[local] Arguments cacheDir : simpl never.
#[local] Arguments ancestors_from : simpl never.

(** [prepare], run: it throws exactly when the cache directory cannot be
    made; the output directory and the mapped path were handled before. *)
Lemma prepare_run :
  prepare h filePath ext s =
  (if mkdir_rejects h (cacheDir h) then Throw (Err "mkdir") else Ok tt,
   {| files := delete out (files s);
      dirs := dirs_after_mkdir h (cacheDir h) (dirs_after_mkdir h dir (dirs s));
      trace := trace s ++ [EvMkdir dir (mkdir_rejects h dir); EvUnlink out;
                           EvMkdir (cacheDir h) (mkdir_rejects h (cacheDir h))];
      outputFilePath := out;
      beforeSize := None;
      afterSize := None |}).
Proof.
  unfold prepare, mkdir, unlink, swallow, try_catch, bind, emit, modify, read, get, ret, throw,
    dirs_after_mkdir.
  cbn. fold out. fold dir.
  destruct (mkdir_rejects h dir); cbn; destruct (files s !! out) eqn:Hout; cbn;
    destruct (mkdir_rejects h (cacheDir h)); cbn;
    unfold set_trace, set_files, set_dirs; cbn; rewrite <- ?app_assoc, ?delete_id by done;
    reflexivity.
Qed.

Lemma ancestors_from_self pre d : pre +:+ d ∈ ancestors_from pre d.
Proof.
  revert pre. induction d as [|a d IH]; intros pre; cbn [ancestors_from].
  - rewrite append_empty_r. by left.
  - apply elem_of_app. right.
    replace (pre +:+ String a d) with ((pre +:+ String a EmptyString) +:+ d); [apply IH |].
    by rewrite append_assoc.
Qed.

Lemma prepare_dirs : mkdir_rejects h dir = false -> dir ∈ dirs (prepare h filePath ext s).2.
Proof.
  intros Hdir. rewrite prepare_run. cbn [snd dirs]. unfold dirs_after_mkdir. rewrite Hdir.
  assert (dir ∈ ancestors_from EmptyString dir) by apply (ancestors_from_self EmptyString).
  destruct (mkdir_rejects h (cacheDir h)); set_solver.
Qed.

End Prepare.

Lemma known_category_false ext :
  known_category ext = false ->
  Js.array_includes ext imageExtensions = false /\ String.eqb ext ".svg" = false
  /\ Js.array_includes ext audioExtensions = false /\ Js.array_includes ext videoExtensions = false
  /\ Js.array_includes ext fontExtensions = false.
Proof. unfold known_category. rewrite !orb_false_iff. tauto. Qed.

Lemma optimise_starts_with_prepare (h : Host) (filePath ext : string) (s : State) :
  let out := mapped_path filePath ext in
  let dir := Js.substring out 0 (Js.lastIndexOf Path.sep out) in
  exists rest,
    trace (optimise h filePath ext s).2 =
    trace s ++ EvMkdir dir (mkdir_rejects h dir) :: EvUnlink out :: rest.
Proof.
  intros out dir. unfold optimise, bind. rewrite prepare_run.
  destruct (mkdir_rejects h (cacheDir h)); cbn [snd trace].
  - by eexists.
  - match goal with |- context [transcode h filePath ext ?s1] =>
      destruct (appends_transcode h filePath ext s1) as [rest Hrest]; rewrite Hrest
    end.
    cbn [trace]. rewrite <- app_assoc. by eexists.
Qed.

(** The same at the level of the change handler, with the extension it
    computes. *)
Lemma handleFileChange_prepares_first (h : Host) (filePath : string) (s : State) :
  let out := mapped_path filePath (Js.toLowerCase (Path.extname filePath)) in
  let dir := Js.substring out 0 (Js.lastIndexOf Path.sep out) in
  exists rest,
    trace (handleFileChange h filePath s).2 =
    trace s ++ EvMkdir dir (mkdir_rejects h dir) :: EvUnlink out :: rest.
Proof.
  intros out dir. unfold handleFileChange, try_catch.
  destruct (optimise_starts_with_prepare h filePath (Js.toLowerCase (Path.extname filePath)) s)
    as [rest Hrest].
  fold out dir in Hrest.
  destruct (optimise h filePath (Js.toLowerCase (Path.extname filePath)) s) as [[[]|e] s1];
    cbn in *.
  - by exists rest.
  - exists (rest ++ [EvConsole (ErrorOptimizing filePath e)]).
    rewrite Hrest. by rewrite <- app_assoc.
Qed.

(** C7: a file left by an earlier run at the final target [photo.avif]
    is still there after the preparation, whose [unlink] names the path
    without the extension; the encoder then writes over it. *)
Theorem stale_target_not_removed_before_write :
  let s0 := project {[ "/proj/public_dev/a/b/photo.png" := "0123456789";
                       "/proj/public/a/b/photo.avif" := "stale" ]} in
  files (prepare image_works "/proj/public_dev/a/b/photo.png" ".png" s0).2
    !! "/proj/public/a/b/photo.avif" = Some "stale"
  /\ trace (optimise image_works "/proj/public_dev/a/b/photo.png" ".png" s0).2 =
     [EvMkdir "/proj/public/a/b" false; EvUnlink "/proj/public/a/b/photo";
      EvMkdir "/proj/opt_cache" false;
      EvConsole (Queueing "/public_dev/a/b/photo.png");
      EvMetadata "/proj/public_dev/a/b/photo.png";
      EvToFile (FromFile "/proj/public_dev/a/b/photo.png" NoResize) "avif"
        (encode_options "avif") "/proj/public/a/b/photo.avif";
      EvStat "/proj/public_dev/a/b/photo.png";
      EvStat "/proj/public/a/b/photo.avif";
      EvConsole (Optimised "/public_dev/a/b/photo.png" 10 "/public/a/b/photo.avif" 4
                   (Dif green (60 # 1) "reduced"))].
Proof. repeat split; vm_compute; reflexivity. Qed.

(** ** Jobs that fail *)

(** C1: the audio encoder wrote a part of [song.aac] and failed: the
    [catch] unlinks the mapped path without its extension, and the partial
    file is still there when the job returns.  The image encoder wrote a
    part of [photo.avif] and failed: the inner [catch] only logs. *)
Theorem partial_output_survives_failed_job :
  let s := (handleFileChange audio_fails "/proj/public_dev/a/song.mp3"
              (project {[ "/proj/public_dev/a/song.mp3" := "0123456789" ]})).2 in
  let s' := (handleFileChange image_fails "/proj/public_dev/a/b/photo.png"
               (project {[ "/proj/public_dev/a/b/photo.png" := "0123456789" ]})).2 in
  files s !! "/proj/public/a/song.aac" = Some "partial"
  /\ trace s =
     [EvMkdir "/proj/public/a" false; EvUnlink "/proj/public/a/song";
      EvMkdir "/proj/opt_cache" false;
      EvConsole (Queueing "/public_dev/a/song.mp3");
      EvExec (audio_command "/proj/public_dev/a/song.mp3" "/proj/public/a/song");
      EvUnlink "/proj/public/a/song";
      EvConsole (ErrorProcessing "/public_dev/a/song.mp3" (Err "Command failed"))]
  /\ files s' !! "/proj/public/a/b/photo.avif" = Some "partial"
  /\ trace s' =
     [EvMkdir "/proj/public/a/b" false; EvUnlink "/proj/public/a/b/photo";
      EvMkdir "/proj/opt_cache" false;
      EvConsole (Queueing "/public_dev/a/b/photo.png");
      EvMetadata "/proj/public_dev/a/b/photo.png";
      EvToFile (FromFile "/proj/public_dev/a/b/photo.png" NoResize) "avif"
        (encode_options "avif") "/proj/public/a/b/photo.avif";
      EvConsole (ErrorProcessing "/public_dev/a/b/photo.png" (Err "sharp"))].
Proof. repeat split; vm_compute; reflexivity. Qed.

(** ** The size report *)

Section Report.

Variables b a : Z.
Hypothesis Hb : 0 < b.
Hypothesis Ha : 0 < a.

Let dif : Q := Qred (inject_Z (b - a) / inject_Z b * inject_Z 100).

Lemma dif_not_positive : (dif <= 0)%Q <-> b - a <= 0.
Proof.
  unfold dif. rewrite Qred_correct.
  destruct b as [|p|p]; try lia.
  unfold Qle, Qdiv, Qmult, Qinv, inject_Z. cbn [Qnum Qden]. cbn. nia.
Qed.

Lemma dif_not_negative : (0 <= dif)%Q <-> 0 <= b - a.
Proof.
  unfold dif. rewrite Qred_correct.
  destruct b as [|p|p]; try lia.
  unfold Qle, Qdiv, Qmult, Qinv, inject_Z. cbn [Qnum Qden]. cbn. nia.
Qed.

Lemma getDif_positive_sizes :
  getDif (Some b) (Some a) =
  Dif (if a <? b then green else if b <? a then red else EmptyString)
      (Qred (inject_Z (b - a) / inject_Z b * inject_Z 100))
      (if a <? b then "reduced" else if b <? a then "gained" else EmptyString).
Proof.
  unfold getDif, truthy. cbn [default from_option id].
  destruct (Z.eqb_spec b 0); [lia |]. destruct (Z.eqb_spec a 0); [lia |]. cbn [negb andb].
  fold dif. unfold Qpositive, Qnegative.
  destruct (Qle_bool dif 0) eqn:H1; destruct (Qle_bool 0 dif) eqn:H2;
    rewrite ?Qle_bool_iff, <- ?not_true_iff_false, ?Qle_bool_iff,
      ?dif_not_positive, ?dif_not_negative in *;
    destruct (Z.ltb_spec a b); destruct (Z.ltb_spec b a); try lia; reflexivity.
Qed.

End Report.

(** C6: for two known sizes that are both positive the report is the
    percentage [(before - after) / before * 100], which is positive exactly
    when the output is the smaller, with the word reduced (in green) when it
    is positive, gained (in red) when it is negative, and neither word nor
    colour when the sizes are equal.  When a size is undefined the report is
    the error marker, never a number. *)
Theorem getDif_report (before after : Z) :
  (0 < before -> 0 < after ->
   getDif (Some before) (Some after) =
   Dif (if after <? before then green else if before <? after then red else EmptyString)
       (Qred (inject_Z (before - after) / inject_Z before * inject_Z 100))
       (if after <? before then "reduced" else if before <? after then "gained" else EmptyString))
  /\ (forall size, getDif None size = DifError /\ getDif size None = DifError).
Proof.
  split; [apply getDif_positive_sizes |].
  intros size. split; [done |]. unfold getDif. by rewrite andb_false_r.
Qed.

Lemma getDif_report_witness :
  getDif (Some 2048) (Some 512) = Dif green (75 # 1) "reduced".
Proof. apply (getDif_report 2048 512); reflexivity. Defined.

(** C6, as stated, fails: a size of zero bytes is a known size, and the
    report shows the error marker for it, as for the empty output that the
    optimiser makes of a drawing of ten bytes. *)
Theorem zero_size_reported_as_error :
  getDif (Some 100) (Some 0) = DifError
  /\ getDif (Some 0) (Some 100) = DifError
  /\ trace (optimise svg_empties "/proj/public_dev/a/dot.svg" ".svg"
              (project {[ "/proj/public_dev/a/dot.svg" := "<!-- a -->" ]})).2 =
     [EvMkdir "/proj/public/a" false; EvUnlink "/proj/public/a/dot";
      EvMkdir "/proj/opt_cache" false;
      EvConsole (Queueing "/public_dev/a/dot.svg");
      EvReadFile "/proj/public_dev/a/dot.svg";
      EvWriteFile "/proj/public/a/dot.svg";
      EvStat "/proj/public_dev/a/dot.svg";
      EvStat "/proj/public/a/dot.svg";
      EvConsole (Optimised "/public_dev/a/dot.svg" 10 "/public/a/dot.svg" 0 DifError)].
Proof. repeat split; vm_compute; reflexivity. Qed.

(** ** The watcher's predicate *)

(** C2: the function answers true on the listed extensions, which is
    chokidar's signal to leave the path out: a png is not delivered, a
    text file is. *)
Theorem listed_extensions_are_ignored :
  ignored "/proj/public_dev/a/icon.png" = true
  /\ delivered "/proj/public_dev/a/icon.png" = false
  /\ known_category (Js.toLowerCase (Path.extname "/proj/public_dev/a/icon.png")) = true
  /\ delivered "/proj/public_dev/notes.txt" = true
  /\ known_category (Js.toLowerCase (Path.extname "/proj/public_dev/notes.txt")) = false.
Proof. repeat split; reflexivity. Qed.

(** ** From the backfill to live watching *)

Section Barrier.

Import Backfill.

Variable listing : list string.

Lemma finish_length index d d' : finish index d = Some d' -> length (jobs d') = length (jobs d).
Proof.
  unfold finish. destruct (jobs d !! index) as [[]|]; intros [= <-]; cbn.
  apply length_insert.
Qed.

Lemma reachable_length d : reachable listing d -> length (jobs d) = length listing.
Proof.
  revert d. apply rtc_ind_r; [| intros y z _ [index Hstep] IH].
  - apply length_fmap.
  - by rewrite (finish_length _ _ _ Hstep).
Qed.

(** What the barrier does guarantee: the handlers are attached only
    after the job of the last entry of the listing has returned. *)
Lemma live_after_last_entry d :
  reachable listing d -> live d = true ->
  jobs d !! (length listing - 1)%nat = Some Finished.
Proof.
  revert d.
  apply (rtc_ind_r (fun d => live d = true -> jobs d !! (length listing - 1)%nat = Some Finished));
    [done | intros y z Hy [index Hstep] IH].
  pose proof (reachable_length y Hy) as Hlen.
  unfold finish in Hstep. destruct (jobs y !! index) as [[]|] eqn:Hjob; try done.
  injection Hstep as <-. cbn. intros Hlive.
  apply lookup_lt_Some in Hjob as Hlt.
  destruct (decide (index = (length listing - 1)%nat)) as [->|Hne].
  - apply list_lookup_insert_eq. lia.
  - rewrite list_lookup_insert_ne by done. apply IH.
    rewrite Hlen in Hlive. rewrite bool_decide_eq_false_2 in Hlive by done.
    by rewrite orb_false_r in Hlive.
Qed.

(** When the last entry of the listing does not match (a directory, a
    text file), the promise is never resolved: the handlers are never
    attached, whatever the jobs do. *)
Lemma never_live_after_unlisted_last_entry d f :
  last listing = Some f -> matches f = false ->
  reachable listing d -> live d = false.
Proof.
  intros Hlast Hf Hd.
  assert (jobs d !! (length listing - 1)%nat = Some NotMatching /\ live d = false) as [_ H];
    [| done].
  revert d Hd. apply rtc_ind_r; [| intros y z Hy [index Hstep] [IHj IHl]].
  - split; [| done]. cbn. rewrite list_lookup_fmap.
    rewrite last_lookup in Hlast. replace (length listing - 1)%nat with (pred (length listing)) by lia.
    by rewrite Hlast; cbn; rewrite Hf.
  - pose proof (reachable_length y Hy) as Hlen.
    unfold finish in Hstep. destruct (jobs y !! index) as [[]|] eqn:Hjob; try done.
    injection Hstep as <-. cbn.
    assert (index <> (length listing - 1)%nat) as Hne by (intros ->; congruence).
    rewrite list_lookup_insert_ne by done. split; [done |].
    rewrite IHl, Hlen. by rewrite bool_decide_eq_false_2.
Qed.

End Barrier.

(** C5: with a listing of a video and an image, the image, last in the
    listing, can finish first; the handlers are then attached while the
    job of the video is still running. *)
Theorem live_while_backfill_job_runs :
  Backfill.reachable ["clip.mp4"; "icon.png"]
    {| Backfill.jobs := [Backfill.Running; Backfill.Finished]; Backfill.live := true |}.
Proof.
  apply rtc_once. exists 1%nat. reflexivity.
Qed.

Lemma live_after_last_entry_witness :
  Backfill.jobs {| Backfill.jobs := [Backfill.Running; Backfill.Finished]; Backfill.live := true |}
    !! (length ["clip.mp4"; "icon.png"] - 1)%nat = Some Backfill.Finished.
Proof.
  apply (live_after_last_entry ["clip.mp4"; "icon.png"]); [| reflexivity].
  apply rtc_once. exists 1%nat. reflexivity.
Defined.

Lemma never_live_after_unlisted_last_entry_witness :
  Backfill.live
    {| Backfill.jobs := [Backfill.NotMatching; Backfill.Finished; Backfill.NotMatching];
       Backfill.live := false |} = false.
Proof.
  apply (never_live_after_unlisted_last_entry ["a"; "a/icon.png"; "notes.txt"] _ "notes.txt");
    [reflexivity | reflexivity |].
  apply rtc_once. exists 1%nat. reflexivity.
Defined.

(** * Further properties of the jobs *)

(** ** No error leaves a job *)

Lemma transcode_returns (h : Host) (filePath ext : string) (s : State) :
  (transcode h filePath ext s).1 = Ok tt.
Proof.
  unfold transcode, try_catch.
  match goal with |- context [match ?m s with _ => _ end] => destruct (m s) as [[[]|e] s1] end;
    [done |].
  unfold bind, read, swallow, try_catch, console, emit, modify, ret. cbn [fst snd].
  by destruct (unlink _ _) as [[[]|e'] s2].
Qed.

(** [optimise] itself throws in one case only, when the cache directory
    cannot be made; the job then stops before the branch of any category:
    the handler's trace holds the three calls of the preparation and the
    error line, and nothing was encoded. *)
Theorem optimise_throws_only_for_cache_dir (h : Host) (filePath ext : string) (s : State) :
  let out := mapped_path filePath ext in
  let dir := Js.substring out 0 (Js.lastIndexOf Path.sep out) in
  (optimise h filePath ext s).1 =
    (if mkdir_rejects h (cacheDir h) then Throw (Err "mkdir") else Ok tt)
  /\ (mkdir_rejects h (cacheDir h) = true ->
      files (optimise h filePath ext s).2 = delete out (files s)
      /\ trace (optimise h filePath ext s).2 =
         trace s ++ [EvMkdir dir (mkdir_rejects h dir); EvUnlink out; EvMkdir (cacheDir h) true]).
Proof.
  intros out dir. unfold optimise, bind. rewrite prepare_run.
  destruct (mkdir_rejects h (cacheDir h)) eqn:Hcache.
  - by split.
  - split; [apply transcode_returns | done].
Qed.

Lemma optimise_throws_only_for_cache_dir_witness :
  files (optimise no_cache_dir "/proj/public_dev/a/b/photo.png" ".png"
           (project {[ "/proj/public_dev/a/b/photo.png" := "0123456789" ]})).2
  = delete (mapped_path "/proj/public_dev/a/b/photo.png" ".png")
      (files (project {[ "/proj/public_dev/a/b/photo.png" := "0123456789" ]}))
  /\ trace (optimise no_cache_dir "/proj/public_dev/a/b/photo.png" ".png"
              (project {[ "/proj/public_dev/a/b/photo.png" := "0123456789" ]})).2
     = trace (project {[ "/proj/public_dev/a/b/photo.png" := "0123456789" ]})
       ++ [EvMkdir "/proj/public/a/b" false; EvUnlink "/proj/public/a/b/photo";
           EvMkdir "/proj/opt_cache" true].
Proof.
  apply (optimise_throws_only_for_cache_dir no_cache_dir "/proj/public_dev/a/b/photo.png" ".png").
  reflexivity.
Defined.

(** ** The extensions the watcher and the backfill test for *)

(** The test of the watcher and of the backfill accepts the extensions
    [optimise] has a branch for, except [.svg]: a vector image is never
    selected by the backfill although [optimise] would process it. *)
Theorem listed_extension_is_known_but_svg (ext : string) :
  listed_extension ext = known_category ext && negb (String.eqb ext ".svg").
Proof.
  unfold listed_extension, known_category, Js.array_includes, imageExtensions,
    audioExtensions, videoExtensions, fontExtensions.
  cbn [existsb].
  repeat match goal with
    | |- context [String.eqb ext ?c] =>
        destruct (String.eqb_spec ext c) as [->|]; [reflexivity |]
    end.
  cbn [orb andb]. apply andb_false_r.
Qed.

(** ** The paths shown in the log *)

Lemma replace_absent p r s : Js.includes p s = false -> Js.replace p r s = s.
Proof.
  induction s as [|a s IH]; cbn [Js.includes Js.replace].
  - by destruct (Js.strip_prefix p EmptyString).
  - destruct (Js.strip_prefix p (String a s)); [done |]. intros H. by rewrite IH.
Qed.

(** The log shows a path below the working directory without the
    working directory; a path in which the working directory does not
    occur is shown whole. *)
Theorem relative_strips_working_directory (h : Host) (root : list string) (rest p : string) :
  root <> [] -> Forall (fun x => plain x = true) root -> cwd h = path_of root ->
  relative h (path_of root +:+ rest) = rest
  /\ (Js.includes (path_of root) p = false -> relative h p = p).
Proof.
  intros Hne Hroot Hcwd. unfold relative. rewrite Hcwd, resolve_dot by done.
  split; [apply replace_head | apply replace_absent].
Qed.

Lemma relative_strips_working_directory_witness :
  relative bare_host ("/proj" +:+ "/public_dev/a/song.mp3") = "/public_dev/a/song.mp3".
Proof.
  apply (relative_strips_working_directory bare_host ["proj"] "/public_dev/a/song.mp3" EmptyString);
    [discriminate | by repeat constructor | reflexivity].
Defined.

(** ** The format of a raster image in a process started at the root *)

(** When the working directory is the root of the filesystem, its
    separator is the first character of every path and is cut with it: the
    format is then png for the images two segments below the watch root,
    and avif for the others. *)
Theorem image_format_at_filesystem_root (h : Host) (segs : list string) :
  cwd h = "/" -> Forall (fun x => sep_free x = true) segs ->
  image_format h (path_of ("public_dev" :: segs))
  = (if bool_decide (length segs = 2%nat) then "png" else "avif").
Proof.
  intros Hcwd Hsegs. unfold image_format. rewrite Hcwd.
  change (Path.resolve "/" "./") with "/".
  rewrite path_of_cons.
  change (String Path.sep ("public_dev" +:+ path_of segs))
    with ("/" +:+ ("public_dev" +:+ path_of segs)).
  rewrite substring_from_append.
  assert ("public_dev" +:+ path_of segs = Js.join Path.sep ("public_dev" :: segs)) as ->.
  { destruct segs as [|x l]; [done |]. by rewrite join_cons, <- path_of_nonempty. }
  unfold Js.split. rewrite split_from_join by by constructor.
  cbn [length]. case_bool_decide as Hlen.
  - by rewrite Hlen.
  - destruct (Z.eqb_spec (Z.of_nat (S (length segs)) - 1) 2); [lia | done].
Qed.

Lemma image_format_at_filesystem_root_witness :
  image_format at_root "/public_dev/a/icon.png" = "png".
Proof.
  apply (image_format_at_filesystem_root at_root ["a"; "icon.png"]);
    [reflexivity | by repeat constructor].
Defined.

(** ** More on the backfill *)

Section BackfillRuns.

Import Backfill.

Variable listing : list string.

(** The converse of the barrier: once the job of the last entry has
    returned, the handlers are attached. *)
Theorem last_entry_finished_is_live d :
  reachable listing d ->
  jobs d !! (length listing - 1)%nat = Some Finished -> live d = true.
Proof.
  revert d.
  apply (rtc_ind_r (fun d => jobs d !! (length listing - 1)%nat = Some Finished -> live d = true)).
  - cbn. rewrite list_lookup_fmap. destruct (listing !! _) as [f|]; [| done].
    cbn. by destruct (matches f).
  - intros y z Hy [index Hstep] IH.
    pose proof (reachable_length listing y Hy) as Hlen.
    unfold finish in Hstep. destruct (jobs y !! index) as [[]|] eqn:Hjob; try done.
    injection Hstep as <-. cbn. rewrite Hlen.
    destruct (decide (index = (length listing - 1)%nat)) as [->|Hne].
    + intros _. rewrite bool_decide_eq_true_2 by done. apply orb_true_r.
    + rewrite list_lookup_insert_ne by done. intros H. by rewrite IH.
Qed.

(** The backfill starts a job for the entries with a listed extension
    and for no other: an entry is marked as not matching in every state
    exactly when its extension is not listed. *)
Theorem backfill_runs_listed_entries d i f :
  reachable listing d -> listing !! i = Some f ->
  (jobs d !! i = Some NotMatching <-> matches f = false).
Proof.
  intros Hd Hf. revert d Hd.
  apply (rtc_ind_r (fun d => jobs d !! i = Some NotMatching <-> matches f = false)).
  - cbn. rewrite list_lookup_fmap, Hf. cbn. by destruct (matches f).
  - intros y z Hy [index Hstep] IH.
    unfold finish in Hstep. destruct (jobs y !! index) as [[]|] eqn:Hjob; try done.
    injection Hstep as <-. cbn.
    destruct (decide (index = i)) as [->|Hne].
    + rewrite list_lookup_insert_eq by by eapply lookup_lt_Some.
      rewrite <- IH, Hjob. split; discriminate.
    + by rewrite list_lookup_insert_ne.
Qed.

End BackfillRuns.

Lemma last_entry_finished_is_live_witness :
  Backfill.live {| Backfill.jobs := [Backfill.Running; Backfill.Finished]; Backfill.live := true |}
  = true.
Proof.
  apply (last_entry_finished_is_live ["clip.mp4"; "icon.png"]); [| reflexivity].
  apply rtc_once. exists 1%nat. reflexivity.
Defined.

Lemma backfill_runs_listed_entries_witness :
  Backfill.jobs {| Backfill.jobs := [Backfill.NotMatching; Backfill.Finished; Backfill.NotMatching];
                   Backfill.live := false |} !! 0%nat = Some Backfill.NotMatching
  <-> Backfill.matches "a" = false.
Proof.
  apply (backfill_runs_listed_entries ["a"; "a/icon.png"; "notes.txt"]); [| reflexivity].
  apply rtc_once. exists 1%nat. reflexivity.
Defined.

(** ** The directory of an output file *)

Section Parent.

Implicit Types s t e : string.

Lemma lastIndexOf_from_bounds c s i acc :
  Js.lastIndexOf_from c s i acc = acc
  \/ i <= Js.lastIndexOf_from c s i acc < i + Js.len s.
Proof.
  revert i acc. induction s as [|a s IH]; intros i acc; [by left |].
  cbn [Js.lastIndexOf_from]. rewrite len_cons.
  pose proof (Zle_0_nat (String.length s)) as Hlen.
  destruct (IH (i + 1) (if Ascii.eqb a c then i else acc)) as [-> | Hb].
  - destruct (Ascii.eqb a c); [right | by left]. unfold Js.len. lia.
  - right. unfold Js.len in *. lia.
Qed.

Lemma lastIndexOf_bounds c s : -1 <= Js.lastIndexOf c s < Js.len s.
Proof.
  unfold Js.lastIndexOf. pose proof (Zle_0_nat (String.length s)).
  destruct (lastIndexOf_from_bounds c s 0 (-1)) as [-> | Hb]; unfold Js.len in *; lia.
Qed.

Lemma take_append_le n s t : (n <= String.length s)%nat -> Js.take n (s +:+ t) = Js.take n s.
Proof.
  revert n. induction s as [|a s IH]; intros n Hn.
  - cbn in Hn. replace n with 0%nat by lia. by destruct t.
  - destruct n as [|n]; [done |]. rewrite append_cons. cbn [Js.take].
    rewrite IH; [done |]. cbn in Hn. lia.
Qed.

Lemma substring_append_below s t k :
  k <= Js.len s -> Js.substring (s +:+ t) 0 k = Js.substring s 0 k.
Proof.
  intros Hk. unfold Js.substring, Js.len in *. rewrite length_append, Nat2Z.inj_add.
  set (n := Z.of_nat (String.length s)) in *. set (m := Z.of_nat (String.length t)).
  assert (0 <= n) by (subst n; lia). assert (0 <= m) by (subst m; lia).
  replace (Z.max 0 (Z.min 0 (n + m))) with 0 by lia.
  replace (Z.max 0 (Z.min 0 n)) with 0 by lia.
  replace (Z.max 0 (Z.min k (n + m))) with (Z.max 0 k) by lia.
  replace (Z.max 0 (Z.min k n)) with (Z.max 0 k) by lia.
  replace (Z.min 0 (Z.max 0 k)) with 0 by lia.
  replace (Z.max 0 (Z.max 0 k) - 0) with (Z.max 0 k) by lia.
  change (Z.to_nat 0) with 0%nat. cbn [Js.drop]. apply take_append_le. subst n. lia.
Qed.

(** Appending an extension does not change the directory of a path. *)
Lemma parent_append e s : sep_free e = true -> parent (s +:+ e) = parent s.
Proof.
  intros He. unfold parent, Js.lastIndexOf.
  rewrite lastIndexOf_from_append, lastIndexOf_from_sep_free by done.
  apply substring_append_below. pose proof (lastIndexOf_bounds Path.sep s).
  unfold Js.lastIndexOf in *. lia.
Qed.

Lemma dir_made h dir c (d : gset string) :
  mkdir_rejects h dir = false -> dir ∈ dirs_after_mkdir h c (dirs_after_mkdir h dir d).
Proof.
  intros Hdir. unfold dirs_after_mkdir. rewrite Hdir.
  pose proof (ancestors_from_self EmptyString dir) as Hself. rewrite append_nil in Hself.
  destruct (mkdir_rejects h c); set_solver.
Qed.

End Parent.

(** ** Jobs that succeed, and how their failures are reported *)

Lemma try_catch_bind {A B} (m : M A) (k : A -> M B) (handler : Error -> M B) (s : State) :
  try_catch (bind m k) handler s =
  match m s with
  | (Ok a, s1) => try_catch (k a) handler s1
  | (Throw e, s1) => handler e s1
  end.
Proof. unfold try_catch, bind. by destruct (m s) as [[a|e] s1]. Qed.

Lemma State_ext (a b : State) :
  files a = files b -> dirs a = dirs b -> trace a = trace b ->
  outputFilePath a = outputFilePath b -> beforeSize a = beforeSize b ->
  afterSize a = afterSize b -> a = b.
Proof. destruct a, b. cbn. by intros -> -> -> -> -> ->. Qed.

Section Jobs.

#[local] Arguments mapped_path : simpl never.
#[local] Arguments relative : simpl never.
#[local] Arguments parent : simpl never.
#[local] Arguments Js.substring : simpl never.
#[local] Arguments Js.lastIndexOf : simpl never.
#[local] Arguments Js.len : simpl never.
#[local] Arguments cacheDir : simpl never.
#[local] Arguments getDif : simpl never.
#[local] Arguments dirs_after_mkdir : simpl never.

Variables (h : Host) (filePath : string) (s : State).

Hypothesis Hcache : mkdir_rejects h (cacheDir h) = false.

Ltac run :=
  unfold optimise, transcode, svg_job, font_job, ttf_job, woff2_job, report, readFile,
    writeFile, store, stat_size, unlink, lift, swallow, try_catch, bind, console,
    emit, modify, read, get, ret, throw;
  cbn [fst snd files dirs trace outputFilePath beforeSize afterSize set_files set_dirs
       set_trace set_outputFilePath set_beforeSize set_afterSize].

Ltac step :=
  cbn [fst snd files dirs trace outputFilePath beforeSize afterSize set_files set_dirs
       set_trace set_outputFilePath set_beforeSize set_afterSize].

(** A vector image: the optimiser's text is written at the mapped path
    with [.svg]; the input is left as it is, and the line of the report has
    the sizes of the two texts. *)
Theorem svg_job_writes_optimised_text (data result : string) :
  let out := mapped_path filePath ".svg" in
  mkdir_rejects h (parent out) = false ->
  files s !! filePath = Some data ->
  svgo_optimize h data = Ok result ->
  filePath <> out -> filePath <> out +:+ ".svg" ->
  (optimise h filePath ".svg" s).1 = Ok tt
  /\ files (optimise h filePath ".svg" s).2 = <[out +:+ ".svg" := result]> (delete out (files s))
  /\ trace (optimise h filePath ".svg" s).2 =
     trace s ++ [EvMkdir (parent out) false; EvUnlink out; EvMkdir (cacheDir h) false;
                 EvConsole (Queueing (relative h filePath));
                 EvReadFile filePath; EvWriteFile (out +:+ ".svg");
                 EvStat filePath; EvStat (out +:+ ".svg");
                 EvConsole (Optimised (relative h filePath) (Js.len data)
                              (relative h out +:+ ".svg") (Js.len result)
                              (getDif (Some (Js.len data)) (Some (Js.len result))))].
Proof.
  intros out Hdir Hdata Hsvgo Hne1 Hne2.
  apply not_eq_sym in Hne1, Hne2.
  assert (optimise h filePath ".svg" s =
          (Ok tt,
           {| files := <[out +:+ ".svg" := result]> (delete out (files s));
              dirs := dirs_after_mkdir h (cacheDir h) (dirs_after_mkdir h (parent out) (dirs s));
              trace := trace s ++ [EvMkdir (parent out) false; EvUnlink out;
                 EvMkdir (cacheDir h) false;
                 EvConsole (Queueing (relative h filePath));
                 EvReadFile filePath; EvWriteFile (out +:+ ".svg");
                 EvStat filePath; EvStat (out +:+ ".svg");
                 EvConsole (Optimised (relative h filePath) (Js.len data)
                              (relative h out +:+ ".svg") (Js.len result)
                              (getDif (Some (Js.len data)) (Some (Js.len result))))];
              outputFilePath := out;
              beforeSize := Some (Js.len data);
              afterSize := Some (Js.len result) |})) as ->; [| done].
  unfold optimise. unfold bind at 1. rewrite prepare_run, Hcache.
  fold out. change (Js.substring out 0 (Js.lastIndexOf Path.sep out)) with (parent out).
  rewrite Hdir.
  unfold transcode.
  change (Js.array_includes ".svg" imageExtensions) with false.
  change (String.eqb ".svg" ".svg") with true. cbv iota.
  run. fold out.
  rewrite lookup_delete_ne; [| done].
  rewrite Hdata. step.
  rewrite Hsvgo. step.
  rewrite parent_append by done.
  rewrite bool_decide_eq_true_2 by by apply dir_made.
  step.
  rewrite lookup_insert_ne; [| done]. rewrite lookup_delete_ne; [| done]. rewrite Hdata. step.
  rewrite lookup_insert_eq. step.
  f_equal. apply State_ext; step; try done. by rewrite <- !app_assoc.
Qed.


(** A TrueType font: the converted bytes are written at the mapped path
    with [.woff2], and the report has the sizes of the two files. *)
Theorem ttf_job_writes_converted_font (data woff : string) :
  let out := mapped_path filePath ".ttf" in
  mkdir_rejects h (parent out) = false ->
  files s !! filePath = Some data ->
  ttf2woff2 h data = Ok woff ->
  filePath <> out -> filePath <> out +:+ ".woff2" ->
  (optimise h filePath ".ttf" s).1 = Ok tt
  /\ files (optimise h filePath ".ttf" s).2 = <[out +:+ ".woff2" := woff]> (delete out (files s))
  /\ trace (optimise h filePath ".ttf" s).2 =
     trace s ++ [EvMkdir (parent out) false; EvUnlink out; EvMkdir (cacheDir h) false;
                 EvConsole (Queueing (relative h filePath));
                 EvReadFile filePath; EvWriteFile (out +:+ ".woff2");
                 EvStat filePath; EvStat (out +:+ ".woff2");
                 EvConsole (Optimised (relative h filePath) (Js.len data)
                              (relative h out +:+ ".woff2") (Js.len woff)
                              (getDif (Some (Js.len data)) (Some (Js.len woff))))].
Proof.
  intros out Hdir Hdata Hconv Hne1 Hne2.
  apply not_eq_sym in Hne1, Hne2.
  assert (optimise h filePath ".ttf" s =
          (Ok tt,
           {| files := <[out +:+ ".woff2" := woff]> (delete out (files s));
              dirs := dirs_after_mkdir h (cacheDir h) (dirs_after_mkdir h (parent out) (dirs s));
              trace := trace s ++ [EvMkdir (parent out) false; EvUnlink out;
                 EvMkdir (cacheDir h) false;
                 EvConsole (Queueing (relative h filePath));
                 EvReadFile filePath; EvWriteFile (out +:+ ".woff2");
                 EvStat filePath; EvStat (out +:+ ".woff2");
                 EvConsole (Optimised (relative h filePath) (Js.len data)
                              (relative h out +:+ ".woff2") (Js.len woff)
                              (getDif (Some (Js.len data)) (Some (Js.len woff))))];
              outputFilePath := out;
              beforeSize := Some (Js.len data);
              afterSize := Some (Js.len woff) |})) as ->; [| done].
  unfold optimise. unfold bind at 1. rewrite prepare_run, Hcache.
  fold out. change (Js.substring out 0 (Js.lastIndexOf Path.sep out)) with (parent out).
  rewrite Hdir.
  unfold transcode.
  change (Js.array_includes ".ttf" imageExtensions) with false.
  change (String.eqb ".ttf" ".svg") with false.
  change (Js.array_includes ".ttf" audioExtensions) with false.
  change (Js.array_includes ".ttf" videoExtensions) with false.
  change (Js.array_includes ".ttf" fontExtensions) with true. cbv iota.
  unfold font_job. change (String.eqb ".ttf" ".ttf") with true. cbv iota.
  run. fold out.
  rewrite lookup_delete_ne by done. rewrite Hdata. step.
  rewrite Hconv. step.
  rewrite parent_append by done.
  rewrite bool_decide_eq_true_2 by by apply dir_made.
  step.
  rewrite lookup_insert_ne by done. rewrite lookup_delete_ne by done. rewrite Hdata. step.
  rewrite lookup_insert_eq. step.
  f_equal. apply State_ext; step; try done. by rewrite <- !app_assoc.
Qed.

(** When the font converter throws, the error is reported as a failure
    to read the font, nothing is written, and the [catch] of [optimise] is
    not reached. *)
Theorem ttf_converter_failure_is_logged_as_read_failure (data : string) (e : Error) :
  let out := mapped_path filePath ".ttf" in
  files s !! filePath = Some data ->
  ttf2woff2 h data = Throw e ->
  filePath <> out ->
  (optimise h filePath ".ttf" s).1 = Ok tt
  /\ files (optimise h filePath ".ttf" s).2 = delete out (files s)
  /\ trace (optimise h filePath ".ttf" s).2 =
     trace s ++ [EvMkdir (parent out) (mkdir_rejects h (parent out)); EvUnlink out;
                 EvMkdir (cacheDir h) false;
                 EvConsole (Queueing (relative h filePath));
                 EvReadFile filePath;
                 EvConsole (UnableToReadFont (relative h filePath) e)].
Proof.
  intros out Hdata Hconv Hne1.
  apply not_eq_sym in Hne1.
  assert (optimise h filePath ".ttf" s =
          (Ok tt,
           {| files := delete out (files s);
              dirs := dirs_after_mkdir h (cacheDir h) (dirs_after_mkdir h (parent out) (dirs s));
              trace := trace s ++ [EvMkdir (parent out) (mkdir_rejects h (parent out));
                 EvUnlink out; EvMkdir (cacheDir h) false;
                 EvConsole (Queueing (relative h filePath));
                 EvReadFile filePath;
                 EvConsole (UnableToReadFont (relative h filePath) e)];
              outputFilePath := out;
              beforeSize := None;
              afterSize := None |})) as ->; [| done].
  unfold optimise. unfold bind at 1. rewrite prepare_run, Hcache.
  fold out. change (Js.substring out 0 (Js.lastIndexOf Path.sep out)) with (parent out).
  unfold transcode.
  change (Js.array_includes ".ttf" imageExtensions) with false.
  change (String.eqb ".ttf" ".svg") with false.
  change (Js.array_includes ".ttf" audioExtensions) with false.
  change (Js.array_includes ".ttf" videoExtensions) with false.
  change (Js.array_includes ".ttf" fontExtensions) with true. cbv iota.
  unfold font_job. change (String.eqb ".ttf" ".ttf") with true. cbv iota.
  run. fold out.
  rewrite lookup_delete_ne by done. rewrite Hdata. step.
  rewrite Hconv. step.
  f_equal. apply State_ext; step; try done. by rewrite <- !app_assoc.
Qed.

(** A font that is already compressed: [optimise] asks for the copy to
    the mapped path with [.woff2] and returns without waiting for it; at its
    return nothing has been written and nothing logged but the queueing
    line.  When the copy settles, in whatever state the files are then, the
    bytes the input holds at that time are written and the copy is logged,
    provided the input is still there and so is the directory of the
    output; otherwise nothing is written and the failure is logged.  No
    size is looked up and no report line is written. *)
Theorem woff2_copy_is_not_awaited (later : State) :
  let out := mapped_path filePath ".woff2" in
  let dst := out +:+ ".woff2" in
  let settled := woff2_copy_settled filePath (relative h filePath) (relative h out) dst later in
  (optimise h filePath ".woff2" s).1 = Ok tt
  /\ files (optimise h filePath ".woff2" s).2 = delete out (files s)
  /\ trace (optimise h filePath ".woff2" s).2 =
     trace s ++ [EvMkdir (parent out) (mkdir_rejects h (parent out)); EvUnlink out;
                 EvMkdir (cacheDir h) false;
                 EvConsole (Queueing (relative h filePath));
                 EvCopyFile filePath dst]
  /\ (forall data, files later !! filePath = Some data -> parent out ∈ dirs later ->
      files settled.2 = <[dst := data]> (files later)
      /\ trace settled.2 =
         trace later ++ [EvConsole (CopiedFont (relative h filePath) (relative h out))])
  /\ (files later !! filePath = None \/ parent out ∉ dirs later ->
      files settled.2 = files later
      /\ trace settled.2 =
         trace later ++ [EvConsole (UnableToCopyFont (relative h filePath) (relative h out)
                                      enoent)]).
Proof.
  intros out dst settled.
  assert (optimise h filePath ".woff2" s =
          (Ok tt,
           {| files := delete out (files s);
              dirs := dirs_after_mkdir h (cacheDir h) (dirs_after_mkdir h (parent out) (dirs s));
              trace := trace s ++ [EvMkdir (parent out) (mkdir_rejects h (parent out));
                 EvUnlink out; EvMkdir (cacheDir h) false;
                 EvConsole (Queueing (relative h filePath));
                 EvCopyFile filePath dst];
              outputFilePath := out;
              beforeSize := None;
              afterSize := None |})) as ->.
  { unfold optimise. unfold bind at 1. rewrite prepare_run, Hcache.
    fold out. change (Js.substring out 0 (Js.lastIndexOf Path.sep out)) with (parent out).
    unfold transcode.
    change (Js.array_includes ".woff2" imageExtensions) with false.
    change (String.eqb ".woff2" ".svg") with false.
    change (Js.array_includes ".woff2" audioExtensions) with false.
    change (Js.array_includes ".woff2" videoExtensions) with false.
    change (Js.array_includes ".woff2" fontExtensions) with true. cbv iota.
    unfold font_job. change (String.eqb ".woff2" ".ttf") with false.
    change (String.eqb ".woff2" ".woff2") with true. cbv iota.
    run. fold out. fold dst.
    f_equal. apply State_ext; step; try done. by rewrite <- !app_assoc. }
  do 3 (split; [done |]).
  subst settled. unfold woff2_copy_settled, copy_completes. run.
  subst dst. rewrite parent_append by done.
  split.
  - intros data Hdata Hdir. rewrite Hdata. step.
    rewrite bool_decide_eq_true_2 by done. by step.
  - intros [Hdata | Hdir].
    + rewrite Hdata. by step.
    + destruct (files later !! filePath); step; [| done].
      rewrite bool_decide_eq_false_2 by done. by step.
Qed.

(** An audio file of any listed extension: after the preparation and the
    queueing line one command is run, the fixed encoder options between the
    quoted input and the quoted mapped path, whatever comes of it; when it
    exits with success having written the mapped path with [.aac], that
    file is the output and the report has the sizes of input and output. *)
Theorem audio_job_reports_encoded_file (ext : string) :
  let out := mapped_path filePath ext in
  In ext audioExtensions ->
  (exists rest,
      trace (optimise h filePath ext s).2 =
      trace s ++ EvMkdir (parent out) (mkdir_rejects h (parent out)) :: EvUnlink out
        :: EvMkdir (cacheDir h) false
        :: EvConsole (Queueing (relative h filePath))
        :: EvExec (audio_command filePath out) :: rest)
  /\ forall data encoded,
      exit_ok (exec h (audio_command filePath out)) = true ->
      written (exec h (audio_command filePath out)) = [(out +:+ ".aac", encoded)] ->
      files s !! filePath = Some data ->
      filePath <> out -> filePath <> out +:+ ".aac" ->
      (optimise h filePath ext s).1 = Ok tt
      /\ files (optimise h filePath ext s).2
         = <[out +:+ ".aac" := encoded]> (delete out (files s))
      /\ trace (optimise h filePath ext s).2 =
         trace s ++ [EvMkdir (parent out) (mkdir_rejects h (parent out)); EvUnlink out;
                     EvMkdir (cacheDir h) false;
                     EvConsole (Queueing (relative h filePath));
                     EvExec (audio_command filePath out);
                     EvStat filePath; EvStat (out +:+ ".aac");
                     EvConsole (Optimised (relative h filePath) (Js.len data)
                                  (relative h out +:+ ".aac") (Js.len encoded)
                                  (getDif (Some (Js.len data)) (Some (Js.len encoded))))].
Proof.
  intros out Hext.
  assert (Js.array_includes ext imageExtensions = false /\ String.eqb ext ".svg" = false
          /\ Js.array_includes ext audioExtensions = true) as (Hi & Hs & Ha).
  { unfold audioExtensions in Hext. cbn [In] in Hext.
    repeat destruct Hext as [<- | Hext]; done. }
  split.
  - unfold optimise. unfold bind at 1. rewrite prepare_run, Hcache.
    fold out. change (Js.substring out 0 (Js.lastIndexOf Path.sep out)) with (parent out).
    unfold transcode. rewrite Hi, Hs, Ha. unfold audio_job.
    match goal with |- context [try_catch _ ?hd] => set (handler := hd) end.
    assert (forall e, appends (handler e)) as Hcatch
      by (intros e; unfold handler; auto 20 with appends).
    rewrite try_catch_bind. unfold console at 1, emit at 1, modify at 1. step.
    rewrite try_catch_bind. unfold read at 1. step.
    rewrite try_catch_bind, execAsync_run.
    destruct (exit_ok (exec h (audio_command filePath out))).
    + match goal with |- context [try_catch (report ?a ?b ?c ?d) handler ?s1] =>
        assert (appends (try_catch (report a b c d) handler)) as Hrest
          by (apply appends_try_catch; [apply appends_report | exact Hcatch]);
        destruct (Hrest s1) as [rest ->]
      end.
      step. rewrite <- !app_assoc. cbn [app]. by eexists.
    + match goal with |- context [handler ?e1 ?s1] =>
        destruct (Hcatch e1 s1) as [rest ->] end.
      step. rewrite <- !app_assoc. cbn [app]. by eexists.
  - intros data encoded Hok Hwritten Hdata Hne1 Hne2.
    apply not_eq_sym in Hne1, Hne2.
    assert (optimise h filePath ext s =
            (Ok tt,
             {| files := <[out +:+ ".aac" := encoded]> (delete out (files s));
                dirs := dirs_after_mkdir h (cacheDir h)
                          (dirs_after_mkdir h (parent out) (dirs s));
                trace := trace s ++ [EvMkdir (parent out) (mkdir_rejects h (parent out));
                   EvUnlink out; EvMkdir (cacheDir h) false;
                   EvConsole (Queueing (relative h filePath));
                   EvExec (audio_command filePath out);
                   EvStat filePath; EvStat (out +:+ ".aac");
                   EvConsole (Optimised (relative h filePath) (Js.len data)
                                (relative h out +:+ ".aac") (Js.len encoded)
                                (getDif (Some (Js.len data)) (Some (Js.len encoded))))];
                outputFilePath := out;
                beforeSize := Some (Js.len data);
                afterSize := Some (Js.len encoded) |})) as ->; [| done].
    unfold optimise. unfold bind at 1. rewrite prepare_run, Hcache.
    fold out. change (Js.substring out 0 (Js.lastIndexOf Path.sep out)) with (parent out).
    unfold transcode. rewrite Hi, Hs, Ha.
    unfold audio_job, execAsync. run. fold out.
    rewrite Hok, Hwritten. step. cbn [foldl fst snd]. step.
    rewrite lookup_insert_ne by done. rewrite lookup_delete_ne by done. rewrite Hdata. step.
    rewrite lookup_insert_eq. step.
    f_equal. apply State_ext; step; try done. by rewrite <- !app_assoc.
Qed.

End Jobs.

Lemma svg_job_writes_optimised_text_witness :
  files (optimise tools_work "/proj/public_dev/a/dot.svg" ".svg"
           (project {[ "/proj/public_dev/a/dot.svg" := "<svg><!-- a --></svg>" ]})).2
  = <[ "/proj/public/a/dot.svg" := "<svg/>" ]>
      (delete "/proj/public/a/dot"
         (files (project {[ "/proj/public_dev/a/dot.svg" := "<svg><!-- a --></svg>" ]}))).
Proof.
  apply (svg_job_writes_optimised_text tools_work "/proj/public_dev/a/dot.svg"
           (project {[ "/proj/public_dev/a/dot.svg" := "<svg><!-- a --></svg>" ]})
           eq_refl "<svg><!-- a --></svg>" "<svg/>");
    first [ reflexivity | intros E; vm_compute in E; discriminate E ].
Defined.


Lemma ttf_job_writes_converted_font_witness :
  files (optimise tools_work "/proj/public_dev/a/sans.ttf" ".ttf"
           (project {[ "/proj/public_dev/a/sans.ttf" := "0123456789" ]})).2
  = <[ "/proj/public/a/sans.woff2" := "wOF2" ]>
      (delete "/proj/public/a/sans"
         (files (project {[ "/proj/public_dev/a/sans.ttf" := "0123456789" ]}))).
Proof.
  apply (ttf_job_writes_converted_font tools_work "/proj/public_dev/a/sans.ttf"
           (project {[ "/proj/public_dev/a/sans.ttf" := "0123456789" ]})
           eq_refl "0123456789" "wOF2");
    first [ reflexivity | intros E; vm_compute in E; discriminate E ].
Defined.

Lemma ttf_converter_failure_is_logged_as_read_failure_witness :
  trace (optimise bare_host "/proj/public_dev/a/sans.ttf" ".ttf"
           (project {[ "/proj/public_dev/a/sans.ttf" := "0123456789" ]})).2
  = trace (project {[ "/proj/public_dev/a/sans.ttf" := "0123456789" ]})
    ++ [EvMkdir "/proj/public/a" false; EvUnlink "/proj/public/a/sans";
        EvMkdir "/proj/opt_cache" false;
        EvConsole (Queueing "/public_dev/a/sans.ttf");
        EvReadFile "/proj/public_dev/a/sans.ttf";
        EvConsole (UnableToReadFont "/public_dev/a/sans.ttf" (Err "ttf2woff2"))].
Proof.
  apply (ttf_converter_failure_is_logged_as_read_failure bare_host "/proj/public_dev/a/sans.ttf"
           (project {[ "/proj/public_dev/a/sans.ttf" := "0123456789" ]})
           eq_refl "0123456789" (Err "ttf2woff2"));
    first [ reflexivity | intros E; vm_compute in E; discriminate E ].
Defined.

Lemma woff2_copy_is_not_awaited_witness :
  let s1 := (optimise tools_work "/proj/public_dev/a/sans.woff2" ".woff2"
               (project {[ "/proj/public_dev/a/sans.woff2" := "wOF2 0123456789" ]})).2 in
  files s1 !! "/proj/public/a/sans.woff2" = None
  /\ files (woff2_copy_settled "/proj/public_dev/a/sans.woff2" "/public_dev/a/sans.woff2"
              "/public/a/sans" "/proj/public/a/sans.woff2" s1).2
       !! "/proj/public/a/sans.woff2" = Some "wOF2 0123456789".
Proof.
  intros s1.
  destruct (woff2_copy_is_not_awaited tools_work "/proj/public_dev/a/sans.woff2"
              (project {[ "/proj/public_dev/a/sans.woff2" := "wOF2 0123456789" ]})
              eq_refl s1) as (_ & Hfiles & _ & Hsettled & _).
  split.
  - subst s1. rewrite Hfiles. reflexivity.
  - destruct (Hsettled "wOF2 0123456789") as [Hcopied _]; [reflexivity | reflexivity |].
    refine (eq_trans (f_equal (fun f => f !! "/proj/public/a/sans.woff2") Hcopied) _).
    apply lookup_insert_eq.
Defined.

(** ** What a job leaves alone *)

Section Keeps.

Variable p : string.

Implicit Types I J K E : string -> Prop.

Lemma keeps_ret {A} I E (a : A) : keeps p I I E (ret a).
Proof. by intros s Hs. Qed.

Lemma keeps_throw {A} I J (e : Error) : keeps p I J I (@throw A e).
Proof. by intros s Hs. Qed.

Lemma keeps_bind {A B} I J K E (m : M A) (k : A -> M B) :
  keeps p I J E m -> (forall a, keeps p J K E (k a)) -> keeps p I K E (bind m k).
Proof.
  intros Hm Hk s Hs. unfold bind. destruct (Hm s Hs) as [Hf Ho].
  destruct (m s) as [[a|e] s1]; cbn [fst snd] in *; [| done].
  destruct (Hk a s1 Ho) as [Hf' Ho']. split; [congruence | done].
Qed.

Lemma keeps_try_catch {A} I J E E' (m : M A) (handler : Error -> M A) :
  keeps p I J E m -> (forall e, keeps p E J E' (handler e)) ->
  keeps p I J E' (try_catch m handler).
Proof.
  intros Hm Hk s Hs. unfold try_catch. destruct (Hm s Hs) as [Hf Ho].
  destruct (m s) as [[a|e] s1]; cbn [fst snd] in *; [done |].
  destruct (Hk e s1 Ho) as [Hf' Ho']. split; [congruence | done].
Qed.

Lemma keeps_weaken {A} I J J' E E' (m : M A) :
  (forall o, J o -> J' o) -> (forall o, E o -> E' o) ->
  keeps p I J E m -> keeps p I J' E' m.
Proof.
  intros HJ HE Hm s Hs. destruct (Hm s Hs) as [Hf Ho]. split; [done |].
  destruct (m s).1; auto.
Qed.

(** The continuation of a read of [outputFilePath] may use what is known
    of its value. *)
Lemma keeps_read_bind {B} I K E (k : string -> M B) :
  (forall a, I a -> keeps p I K E (k a)) -> keeps p I K E (bind (read outputFilePath) k).
Proof. intros Hk s Hs. unfold bind, read. by apply Hk. Qed.

Lemma keeps_modify I E (f : State -> State) :
  (forall s, files (f s) = files s) -> (forall s, outputFilePath (f s) = outputFilePath s) ->
  keeps p I I E (modify f).
Proof. intros Hf Ho s Hs. cbn. by rewrite Hf, Ho. Qed.

Lemma keeps_emit I E e : keeps p I I E (emit e).
Proof. by apply keeps_modify. Qed.

Lemma keeps_get I E : keeps p I I E get.
Proof. by intros s Hs. Qed.

Lemma keeps_lift {A} I (r : Result A) : keeps p I I I (lift r).
Proof. destruct r; [apply keeps_ret | apply keeps_throw]. Qed.

Lemma keeps_swallow I J E E' m :
  keeps p I J E m -> (forall o, E o -> J o) -> keeps p I J E' (swallow m).
Proof.
  intros Hm HE. apply (keeps_try_catch I J E E'); [done |].
  intros _. apply (keeps_weaken E E J E' E'); [done | done | apply keeps_ret].
Qed.

Lemma keeps_mkdir I h dir : keeps p I I I (mkdir h dir).
Proof.
  unfold mkdir. eapply keeps_bind; [apply keeps_emit | intros _].
  destruct (mkdir_rejects h dir); [apply keeps_throw | by apply keeps_modify].
Qed.

Lemma keeps_unlink I q : q <> p -> keeps p I I I (unlink q).
Proof.
  intros Hq s Hs. unfold unlink, bind, emit, modify, get, throw. cbn.
  destruct (files s !! q); cbn; [| done]. by rewrite lookup_delete_ne.
Qed.

Lemma keeps_readFile I q : keeps p I I I (readFile q).
Proof.
  intros s Hs. unfold readFile, bind, emit, modify, get, ret, throw. cbn.
  by destruct (files s !! q).
Qed.

Lemma keeps_stat_size I q : keeps p I I I (stat_size q).
Proof.
  intros s Hs. unfold stat_size, bind, emit, modify, get, ret, throw. cbn.
  by destruct (files s !! q).
Qed.

Lemma keeps_store I q c : q <> p -> keeps p I I I (store q c).
Proof.
  intros Hq s Hs. unfold store, bind, modify, get, throw. cbn.
  case_bool_decide; cbn; [| done]. by rewrite lookup_insert_ne.
Qed.

Lemma keeps_writeFile I q c : q <> p -> keeps p I I I (writeFile q c).
Proof.
  intros Hq. unfold writeFile. eapply keeps_bind; [apply keeps_emit | intros _].
  by apply keeps_store.
Qed.

Lemma keeps_metadata I h q : keeps p I I I (metadata h q).
Proof. unfold metadata. eapply keeps_bind; [apply keeps_emit | intros _; apply keeps_lift]. Qed.

Lemma keeps_raw_toBuffer I h q r : keeps p I I I (raw_toBuffer h q r).
Proof.
  unfold raw_toBuffer. eapply keeps_bind; [apply keeps_emit | intros _; apply keeps_lift].
Qed.

Lemma keeps_toFile I h input format options q :
  q <> p -> keeps p I I I (toFile h input format options q).
Proof.
  intros Hq s Hs. unfold toFile, bind, emit, modify, throw. cbn.
  destruct (sharp_toFile h input format options q); cbn; by rewrite ?lookup_insert_ne.
Qed.

Lemma lookup_foldl_insert (l : list (string * string)) (f : gmap string string) :
  (forall q c, (q, c) ∈ l -> q <> p) ->
  foldl (fun f kv => <[kv.1 := kv.2]> f) f l !! p = f !! p.
Proof.
  revert f. induction l as [|[q c] l IH]; intros f Hl; [done |].
  cbn [foldl]. rewrite IH.
  - apply lookup_insert_ne. apply (Hl q c). by left.
  - intros q' c' Hin. apply (Hl q' c'). by right.
Qed.

Lemma keeps_execAsync I h command :
  (forall q c, (q, c) ∈ written (exec h command) -> q <> p) ->
  keeps p I I I (execAsync h command).
Proof.
  intros Hw s Hs. unfold execAsync, bind, emit, modify, ret, throw. cbn.
  destruct (exit_ok (exec h command)); cbn; by rewrite lookup_foldl_insert.
Qed.

Lemma keeps_report I filePath written_path input output :
  keeps p I I I (report filePath written_path input output).
Proof.
  unfold report.
  eapply keeps_bind; [apply keeps_stat_size | intros b].
  eapply keeps_bind; [by apply keeps_modify | intros _].
  eapply keeps_bind; [apply keeps_stat_size | intros a].
  eapply keeps_bind; [by apply keeps_modify | intros _].
  eapply keeps_bind; [apply keeps_get | intros s]. apply keeps_emit.
Qed.

End Keeps.

Section Frame.

Variables (h : Host) (filePath ext p : string).

Let out := mapped_path filePath ext.

Hypothesis Hout : p <> out.
Hypothesis Hpng : p <> out +:+ ".png".
Hypothesis Havif : p <> out +:+ ".avif".
Hypothesis Hsvg : p <> out +:+ ".svg".
Hypothesis Hwoff2 : p <> out +:+ ".woff2".
Hypothesis Hexec : forall command q c, (q, c) ∈ written (exec h command) -> q <> p.

(** The values [outputFilePath] takes in a job: the mapped path, then,
    in the image branch, the mapped path with its format. *)
Let mapped (o : string) : Prop := o = out.
Let formatted (o : string) : Prop := o = out +:+ ".png" \/ o = out +:+ ".avif".
Let either (o : string) : Prop := mapped o \/ formatted o.

Ltac next lemma := eapply keeps_bind; [apply lemma | intros ?].

Lemma keeps_svg_job input output : keeps p mapped mapped mapped (svg_job h filePath input output).
Proof.
  unfold svg_job. next keeps_emit. next keeps_readFile. next keeps_lift.
  apply keeps_read_bind. intros o ->.
  eapply keeps_bind; [by apply keeps_writeFile | intros _]. apply keeps_report.
Qed.

Lemma keeps_audio_job input output :
  keeps p mapped mapped mapped (audio_job h filePath input output).
Proof.
  unfold audio_job. next keeps_emit. apply keeps_read_bind. intros o ->.
  eapply keeps_bind; [apply keeps_execAsync, Hexec | intros _]. apply keeps_report.
Qed.

Lemma keeps_video_job input output :
  keeps p mapped mapped mapped (video_job h filePath input output).
Proof.
  unfold video_job. next keeps_emit.
  eapply keeps_bind; [apply keeps_execAsync, Hexec | intros encoders].
  apply keeps_read_bind. intros o ->.
  eapply keeps_bind; [apply keeps_execAsync, Hexec | intros _]. apply keeps_report.
Qed.

Lemma keeps_font_job input output :
  keeps p mapped mapped mapped (font_job h filePath ext input output).
Proof.
  unfold font_job, ttf_job, woff2_job. next keeps_emit.
  destruct (String.eqb ext ".ttf"); [| destruct (String.eqb ext ".woff2")].
  - eapply keeps_try_catch; [| intros e; apply keeps_emit].
    next keeps_readFile. next keeps_lift. apply keeps_read_bind. intros o ->.
    eapply keeps_try_catch; [| intros e; apply keeps_emit].
    eapply keeps_bind; [by apply keeps_writeFile | intros _]. apply keeps_report.
  - apply keeps_read_bind. intros o ->. apply keeps_emit.
  - apply keeps_ret.
Qed.

Lemma keeps_image_job input output :
  keeps p mapped formatted either (image_job h filePath input output).
Proof.
  unfold image_job. next keeps_emit.
  eapply keeps_try_catch; [| intros e; apply keeps_emit].
  eapply (keeps_bind p mapped formatted formatted formatted).
  { intros s Hs. cbn. split; [done |]. unfold mapped in Hs. rewrite Hs.
    unfold formatted, image_format. destruct (_ =? 2); [by left | by right]. }
  intros _. next keeps_metadata.
  apply keeps_read_bind. intros o Ho.
  assert (o <> p) as Hop by (destruct Ho as [-> | ->]; done).
  eapply keeps_bind; [| intros _; apply keeps_report].
  destruct (default false (hasAlpha _)).
  - next keeps_raw_toBuffer. by apply keeps_toFile.
  - by apply keeps_toFile.
Qed.

(** The branch of the category, before the [catch] of line 202. *)
Lemma keeps_branch input output :
  keeps p mapped either either
    (if Js.array_includes ext imageExtensions then image_job h filePath input output
     else if String.eqb ext ".svg" then svg_job h filePath input output
     else if Js.array_includes ext audioExtensions then audio_job h filePath input output
     else if Js.array_includes ext videoExtensions then video_job h filePath input output
     else if Js.array_includes ext fontExtensions then font_job h filePath ext input output
     else ret tt).
Proof.
  destruct (Js.array_includes ext imageExtensions).
  { eapply keeps_weaken; [| | apply keeps_image_job]; [by right | done]. }
  destruct (String.eqb ext ".svg").
  { eapply keeps_weaken; [| | apply keeps_svg_job]; by left. }
  destruct (Js.array_includes ext audioExtensions).
  { eapply keeps_weaken; [| | apply keeps_audio_job]; by left. }
  destruct (Js.array_includes ext videoExtensions).
  { eapply keeps_weaken; [| | apply keeps_video_job]; by left. }
  destruct (Js.array_includes ext fontExtensions).
  { eapply keeps_weaken; [| | apply keeps_font_job]; by left. }
  eapply keeps_weaken; [| | apply (keeps_ret p mapped mapped)]; by left.
Qed.

Lemma keeps_transcode : keeps p mapped either either (transcode h filePath ext).
Proof.
  unfold transcode.
  eapply (keeps_try_catch p mapped either either either).
  - apply keeps_branch.
  - intros e. apply keeps_read_bind. intros o Ho.
    assert (o <> p) as Hop by (destruct Ho as [-> | [-> | ->]]; done).
    eapply keeps_bind; [| intros _; apply keeps_emit].
    eapply keeps_swallow; [by apply keeps_unlink | done].
Qed.

(** A job changes no file but its own outputs: whatever the services
    answer, a path that is neither the mapped path, nor the mapped path with
    one of the extensions the strategists append, nor written by a child
    process, holds after the job what it held before. *)
Theorem optimise_touches_only_its_outputs (s : State) :
  files (optimise h filePath ext s).2 !! p = files s !! p.
Proof.
  unfold optimise, bind. rewrite prepare_run.
  destruct (mkdir_rejects h (cacheDir h)); cbn [fst snd files].
  - by rewrite lookup_delete_ne.
  - match goal with |- context [transcode h filePath ext ?s1] =>
      destruct (keeps_transcode s1) as [Hf _]; [done |]; rewrite Hf
    end.
    cbn [files]. by rewrite lookup_delete_ne.
Qed.

End Frame.

Lemma optimise_touches_only_its_outputs_witness :
  files (optimise image_fails "/proj/public_dev/a/b/photo.png" ".png"
           (project {[ "/proj/public_dev/a/b/photo.png" := "0123456789" ]})).2
    !! "/proj/public_dev/a/b/photo.png"
  = files (project {[ "/proj/public_dev/a/b/photo.png" := "0123456789" ]})
      !! "/proj/public_dev/a/b/photo.png".
Proof.
  apply (optimise_touches_only_its_outputs image_fails "/proj/public_dev/a/b/photo.png" ".png");
    first [ intros E; vm_compute in E; discriminate E
          | intros command q c Hin; vm_compute in Hin; by apply elem_of_nil in Hin ].
Defined.

Lemma audio_job_reports_encoded_file_witness :
  files (optimise audio_works "/proj/public_dev/a/song.mp3" ".mp3"
           (project {[ "/proj/public_dev/a/song.mp3" := "0123456789" ]})).2
  = <[ "/proj/public/a/song.aac" := "aac" ]>
      (delete "/proj/public/a/song"
         (files (project {[ "/proj/public_dev/a/song.mp3" := "0123456789" ]}))).
Proof.
  destruct (audio_job_reports_encoded_file audio_works "/proj/public_dev/a/song.mp3"
              (project {[ "/proj/public_dev/a/song.mp3" := "0123456789" ]})
              eq_refl ".mp3") as [_ Hdone]; [by left |].
  apply (Hdone "0123456789" "aac");
    first [ reflexivity | intros E; vm_compute in E; discriminate E ].
Defined.

(** ** Directories are made by the preparation only *)

Create HintDb leaves_dirs.

Section LeavesDirs.

Context {A B : Type}.

Lemma leaves_dirs_ret (a : A) : leaves_dirs (ret a).
Proof. by intros s. Qed.

Lemma leaves_dirs_throw (e : Error) : leaves_dirs (@throw A e).
Proof. by intros s. Qed.

Lemma leaves_dirs_bind (m : M A) (k : A -> M B) :
  leaves_dirs m -> (forall a, leaves_dirs (k a)) -> leaves_dirs (bind m k).
Proof.
  intros Hm Hk s. unfold bind. specialize (Hm s).
  destruct (m s) as [[a|e] s']; cbn in *; [| done]. by rewrite Hk.
Qed.

Lemma leaves_dirs_try_catch (m : M A) (handler : Error -> M A) :
  leaves_dirs m -> (forall e, leaves_dirs (handler e)) -> leaves_dirs (try_catch m handler).
Proof.
  intros Hm Hk s. unfold try_catch. specialize (Hm s).
  destruct (m s) as [[a|e] s']; cbn in *; [done |]. by rewrite Hk.
Qed.

Lemma leaves_dirs_read (f : State -> A) : leaves_dirs (read f).
Proof. by intros s. Qed.

Lemma leaves_dirs_lift (r : Result A) : leaves_dirs (lift r).
Proof. destruct r; [apply leaves_dirs_ret | apply leaves_dirs_throw]. Qed.

End LeavesDirs.

Lemma leaves_dirs_get : leaves_dirs get.
Proof. by intros s. Qed.

Lemma leaves_dirs_modify f : (forall s, dirs (f s) = dirs s) -> leaves_dirs (modify f).
Proof. intros Hf s. cbn. by rewrite Hf. Qed.

Lemma leaves_dirs_emit e : leaves_dirs (emit e).
Proof. by intros s. Qed.

Lemma leaves_dirs_swallow m : leaves_dirs m -> leaves_dirs (swallow m).
Proof. intros Hm. apply leaves_dirs_try_catch; [done |]. intros _. apply leaves_dirs_ret. Qed.

Lemma leaves_dirs_if {A} (b : bool) (m1 m2 : M A) :
  leaves_dirs m1 -> leaves_dirs m2 -> leaves_dirs (if b then m1 else m2).
Proof. by destruct b. Qed.

#[local] Hint Resolve leaves_dirs_ret leaves_dirs_throw leaves_dirs_read leaves_dirs_lift
  leaves_dirs_get leaves_dirs_emit leaves_dirs_swallow leaves_dirs_if : leaves_dirs.
#[local] Hint Extern 1 (leaves_dirs (bind _ _)) =>
  apply leaves_dirs_bind; [| intros ?] : leaves_dirs.
#[local] Hint Extern 1 (leaves_dirs (try_catch _ _)) =>
  apply leaves_dirs_try_catch; [| intros ?] : leaves_dirs.
#[local] Hint Extern 1 (leaves_dirs (modify _)) =>
  apply leaves_dirs_modify; intros ?; reflexivity : leaves_dirs.
#[local] Hint Extern 1 (leaves_dirs (console _)) => apply leaves_dirs_emit : leaves_dirs.
#[local] Hint Extern 2 (leaves_dirs (match ?x with _ => _ end)) => destruct x : leaves_dirs.

Lemma leaves_dirs_unlink p : leaves_dirs (unlink p).
Proof. unfold unlink. auto 10 with leaves_dirs. Qed.

Lemma leaves_dirs_readFile p : leaves_dirs (readFile p).
Proof. unfold readFile. auto 10 with leaves_dirs. Qed.

Lemma leaves_dirs_store p c : leaves_dirs (store p c).
Proof. unfold store. auto 10 with leaves_dirs. Qed.

#[local] Hint Resolve leaves_dirs_unlink leaves_dirs_readFile leaves_dirs_store : leaves_dirs.

Lemma leaves_dirs_writeFile p c : leaves_dirs (writeFile p c).
Proof. unfold writeFile. auto 10 with leaves_dirs. Qed.

Lemma leaves_dirs_stat_size p : leaves_dirs (stat_size p).
Proof. unfold stat_size. auto 10 with leaves_dirs. Qed.

Lemma leaves_dirs_metadata h p : leaves_dirs (metadata h p).
Proof. unfold metadata. auto 10 with leaves_dirs. Qed.

Lemma leaves_dirs_raw_toBuffer h p r : leaves_dirs (raw_toBuffer h p r).
Proof. unfold raw_toBuffer. auto 10 with leaves_dirs. Qed.

Lemma leaves_dirs_toFile h input format options out :
  leaves_dirs (toFile h input format options out).
Proof. unfold toFile. auto 10 with leaves_dirs. Qed.

Lemma leaves_dirs_execAsync h command : leaves_dirs (execAsync h command).
Proof. unfold execAsync. auto 10 with leaves_dirs. Qed.

#[local] Hint Resolve leaves_dirs_writeFile leaves_dirs_stat_size leaves_dirs_metadata
  leaves_dirs_raw_toBuffer leaves_dirs_toFile leaves_dirs_execAsync : leaves_dirs.

Lemma leaves_dirs_report filePath written_path input output :
  leaves_dirs (report filePath written_path input output).
Proof. unfold report. auto 20 with leaves_dirs. Qed.

#[local] Hint Resolve leaves_dirs_report : leaves_dirs.

Lemma leaves_dirs_transcode h filePath ext : leaves_dirs (transcode h filePath ext).
Proof.
  unfold transcode, image_job, svg_job, audio_job, video_job, font_job, ttf_job, woff2_job.
  auto 30 with leaves_dirs.
Qed.

(** ** The mapped path stays free *)

Lemma append_ne (s t : string) : t <> EmptyString -> s <> s +:+ t.
Proof.
  intros Ht E. apply Ht. apply (append_inj_l s). by rewrite <- E, append_empty_r.
Qed.

Section Absent.

Variables (h : Host) (filePath ext : string).

Let out := mapped_path filePath ext.

Hypothesis Hexec : forall command q c, (q, c) ∈ written (exec h command) -> q <> out.

(** Once nothing lies at the mapped path, nothing does after the branch
    of the category either: the strategists write at the mapped path with
    an extension, and the [catch] only removes. *)
Lemma transcode_leaves_absent (s : State) :
  outputFilePath s = out -> files s !! out = None ->
  files (transcode h filePath ext s).2 !! out = None.
Proof.
  intros Ho Hnone. unfold transcode, try_catch.
  pose proof (keeps_branch h filePath ext out) as Hbranch. cbv zeta in Hbranch.
  specialize (Hbranch ltac:(by apply append_ne) ltac:(by apply append_ne)
                ltac:(by apply append_ne) ltac:(by apply append_ne) Hexec
                (relative h filePath) (relative h (mapped_path filePath ext)) s Ho).
  destruct Hbranch as [Hfiles _].
  match type of Hfiles with context [(?m s).2] => destruct (m s) as [[[]|e] s1] end;
    cbn [fst snd] in *.
  - by rewrite Hfiles.
  - unfold swallow, unlink, console, try_catch, bind, read, emit, modify, get, ret, throw.
    cbn [fst snd files trace outputFilePath set_trace set_files].
    destruct (files s1 !! outputFilePath s1) eqn:Hthere;
      cbn [fst snd files trace outputFilePath set_trace set_files].
    + destruct (decide (outputFilePath s1 = out)) as [-> | Hne].
      * apply lookup_delete_eq.
      * rewrite lookup_delete_ne by done. by rewrite Hfiles.
    + by rewrite Hfiles.
Qed.

End Absent.

(** C10: for every path handed to [optimise], whatever its extension
    and whatever the host, the job begins with the creation of the directory
    of the mapped path, whose rejection, of any kind, is swallowed, and
    with the removal of the file at the mapped path without extension;
    only then, and only when the cache directory could be made, does the
    branch of the category run, in the state these calls left.  So, when the
    job is over, whichever branch ran or none: the directory is there
    unless its creation was rejected, and nothing lies at the mapped path
    unless a child process wrote there.  For an extension that has no
    branch the files are those of before without the file at the mapped
    path. *)
Theorem optimise_prepares_first (h : Host) (filePath ext : string) (s : State) :
  let out := mapped_path filePath ext in
  let dir := Js.substring out 0 (Js.lastIndexOf Path.sep out) in
  let prepared :=
    {| files := delete out (files s);
       dirs := dirs_after_mkdir h (cacheDir h) (dirs_after_mkdir h dir (dirs s));
       trace := trace s ++ [EvMkdir dir (mkdir_rejects h dir); EvUnlink out;
                            EvMkdir (cacheDir h) (mkdir_rejects h (cacheDir h))];
       outputFilePath := out;
       beforeSize := None;
       afterSize := None |} in
  optimise h filePath ext s =
    (if mkdir_rejects h (cacheDir h) then (Throw (Err "mkdir"), prepared)
     else transcode h filePath ext prepared)
  /\ (exists rest,
         trace (optimise h filePath ext s).2 =
         trace s ++ EvMkdir dir (mkdir_rejects h dir) :: EvUnlink out :: rest)
  /\ (mkdir_rejects h dir = false -> dir ∈ dirs (optimise h filePath ext s).2)
  /\ ((forall command q c, (q, c) ∈ written (exec h command) -> q <> out) ->
      files (optimise h filePath ext s).2 !! out = None)
  /\ (known_category ext = false ->
      files (optimise h filePath ext s).2 = delete out (files s)).
Proof.
  intros out dir prepared.
  assert (optimise h filePath ext s =
          (if mkdir_rejects h (cacheDir h) then (Throw (Err "mkdir"), prepared)
           else transcode h filePath ext prepared)) as Hrun.
  { unfold optimise, bind. rewrite prepare_run. fold out dir prepared.
    by destruct (mkdir_rejects h (cacheDir h)). }
  split; [exact Hrun |].
  split; [apply optimise_starts_with_prepare |].
  rewrite Hrun. split; [| split].
  - intros Hdir.
    assert (dir ∈ dirs prepared) as Hin by by apply dir_made.
    destruct (mkdir_rejects h (cacheDir h)); [done |].
    by rewrite leaves_dirs_transcode.
  - intros Hexec.
    assert (files prepared !! out = None) as Hnone by apply lookup_delete_eq.
    destruct (mkdir_rejects h (cacheDir h)); [done |].
    by apply transcode_leaves_absent.
  - intros Hext. apply known_category_false in Hext as (Hi & Hs & Ha & Hv & Hf).
    destruct (mkdir_rejects h (cacheDir h)); [done |].
    unfold transcode, try_catch. by rewrite Hi, Hs, Ha, Hv, Hf.
Qed.

Lemma optimise_prepares_first_witness :
  let s0 := project {[ "/proj/public_dev/a/b/photo.png" := "0123456789";
                       "/proj/public/a/b/photo" := "left by hand" ]} in
  mapped_path "/proj/public_dev/a/b/photo.png" ".png" = "/proj/public/a/b/photo"
  /\ "/proj/public/a/b" ∈ dirs (optimise image_works "/proj/public_dev/a/b/photo.png" ".png" s0).2
  /\ files (optimise image_works "/proj/public_dev/a/b/photo.png" ".png" s0).2
       !! "/proj/public/a/b/photo" = None.
Proof.
  intros s0.
  destruct (optimise_prepares_first image_works "/proj/public_dev/a/b/photo.png" ".png" s0)
    as (_ & _ & Hdir & Hfile & _).
  split; [reflexivity |]. split.
  - apply Hdir. reflexivity.
  - apply Hfile. intros command q c Hin. vm_compute in Hin. inversion Hin.
Defined.
